(** * TowerDefense: the per-frame update pipeline of [main.cpp]

    A shallow embedding of the systems of [src/TowerDefense/main.cpp]
    ([UpdateMonster], [UpdateTower], [UpdateBullet] and the three update
    loops of [main]) together with the properties of the specification
    that concern them.

    Conventions.
    - [float] values are IEEE-754 binary32 numbers, computed with the
      parametric operations of [SpecFloat] at precision 24 and maximal
      exponent 128: every C++ operator and [sqrtf] round once, to nearest
      even, as on x64 (no excess precision, no fused multiply-add).
    - [uint32_t] values are integers of [Z]; every operation that can leave
      the range [0 .. 2^32) is written with [wrap32].
    - A [std::vector] is a [list]; [operator[]] outside the vector is
      undefined behaviour in C++ and is the outcome [OutOfBounds] here.
    - Loops whose index is a [uint32_t] run on fuel; [OutOfFuel] stands for
      a loop that did not reach its exit test. *)

From Stdlib Require Import ZArith Lia Bool.
From Stdlib Require Import Floats.SpecFloat.
From stdpp Require Import base list numbers.

Local Open Scope Z_scope.

(** ** Binary32 arithmetic *)

Module F32.

Definition prec : Z := 24.
Definition emax : Z := 128.

Definition float : Type := spec_float.

Definition add : float -> float -> float := SFadd prec emax.
Definition sub : float -> float -> float := SFsub prec emax.
Definition mul : float -> float -> float := SFmul prec emax.
Definition div : float -> float -> float := SFdiv prec emax.
Definition sqrt : float -> float := SFsqrt prec emax.

(** [x <= y] and [x >= y] of C++: false as soon as one side is a NaN. *)
Definition leb (x y : float) : bool := SFleb x y.
Definition geb (x y : float) : bool :=
  match SFcompare x y with
  | Some (Gt | Eq) => true
  | _ => false
  end.

(** The literal [m * 2^e], rounded to binary32. *)
Definition lit (m e : Z) : float := binary_normalize prec emax m e false.
Definition of_Z (z : Z) : float := lit z 0.

Definition zero : float := S754_zero false.

Definition is_zero (x : float) : bool :=
  match x with S754_zero _ => true | _ => false end.

End F32.

Abbreviation float := F32.float.

(** ** Machine integers and vectors *)

Definition wrap32 (z : Z) : Z := z mod 2 ^ 32.

Definition uint32 (z : Z) : Prop := 0 <= z < 2 ^ 32.

(** The result of a piece of code that indexes vectors and loops. *)
Inductive outcome (A : Type) : Type :=
| Ok (a : A)
| OutOfBounds
| OutOfFuel.

Arguments Ok {A} a.
Arguments OutOfBounds {A}.
Arguments OutOfFuel {A}.

#[global] Instance outcome_ret : MRet outcome := fun _ a => Ok a.
#[global] Instance outcome_bind : MBind outcome := fun _ _ k m =>
  match m with
  | Ok a => k a
  | OutOfBounds => OutOfBounds
  | OutOfFuel => OutOfFuel
  end.

(** [v[i]] for an unsigned index [i]. *)
Definition vec_at {A : Type} (v : list A) (i : Z) : outcome A :=
  match v !! Z.to_nat i with
  | Some a => Ok a
  | None => OutOfBounds
  end.

(** [v[i] = a], the vector being reached through a reference. *)
Definition vec_set {A : Type} (v : list A) (i : Z) (a : A) : list A :=
  <[Z.to_nat i := a]> v.

(** [v.pop_back()] on a vector that is not empty. *)
Definition pop_back {A : Type} (v : list A) : list A :=
  take (length v - 1)%nat v.

(** [v.size()], a [size_t]. *)
Definition size {A : Type} (v : list A) : Z := Z.of_nat (length v).

(** ** Constants *)

Definition BULLET_RADIUS : float := F32.of_Z 8.
Definition MONSTER_SPEED : float := F32.of_Z 100.
Definition BULLET_SPEED : float := F32.of_Z 150.

(** The proximity threshold [2.0f] of [UpdateMonster]. *)
Definition PROXIMITY : float := F32.of_Z 2.

(** The damage [50] of the bullets that [UpdateTower] creates. *)
Definition SHOT_DAMAGE : Z := 50.

(** ** Components and entities

    The one-field components ([Health], [Damage], [AttackRange],
    [AttackRate], [Timer]) are their [value]. *)

Record Position : Type := { x : float; y : float }.

Record Velocity : Type := { vx : float; vy : float }.

(** [sf::Vector2f], as far as [Normalize] uses it. *)
Record Vector2f : Type := { v2x : float; v2y : float }.

Module Monster.
Record t : Type := {
  health : Z;
  position : Position;
  velocity : Velocity;
  waypoint_index : Z;
  damage : Z
}.
End Monster.
Abbreviation Monster := Monster.t.

Module Waypoint.
Record t : Type := { position : Position }.
End Waypoint.
Abbreviation Waypoint := Waypoint.t.

Module Tower.
Record t : Type := {
  position : Position;
  range : float;
  attackRate : float;
  timer : float
}.
End Tower.
Abbreviation Tower := Tower.t.

Module Bullet.
Record t : Type := {
  position : Position;
  velocity : Velocity;
  damage : Z;
  target_index : Z
}.
End Bullet.
Abbreviation Bullet := Bullet.t.

(** ** Geometry *)

Definition Distance (pos1 pos2 : Position) : float :=
  F32.sqrt
    (F32.add
       (F32.mul (F32.sub (x pos2) (x pos1)) (F32.sub (x pos2) (x pos1)))
       (F32.mul (F32.sub (y pos2) (y pos1)) (F32.sub (y pos2) (y pos1)))).

Definition Magnitude (a b : float) : float :=
  F32.sqrt (F32.add (F32.mul a a) (F32.mul b b)).

Definition Normalize (a b : float) : Vector2f :=
  let magnitude := Magnitude a b in
  {| v2x := F32.div a magnitude; v2y := F32.div b magnitude |}.

(** [pos += dir * speed * DeltaTime], component by component. *)
Definition advance (pos : Position) (dir : Vector2f) (speed DeltaTime : float)
  : Position :=
  {| x := F32.add (x pos) (F32.mul (F32.mul (v2x dir) speed) DeltaTime);
     y := F32.add (y pos) (F32.mul (F32.mul (v2y dir) speed) DeltaTime) |}.

(** ** The monster system *)

Definition set_waypoint_index (m : Monster) (i : Z) : Monster :=
  {| Monster.health := Monster.health m;
     Monster.position := Monster.position m;
     Monster.velocity := Monster.velocity m;
     Monster.waypoint_index := i;
     Monster.damage := Monster.damage m |}.

Definition set_monster_position (m : Monster) (p : Position) : Monster :=
  {| Monster.health := Monster.health m;
     Monster.position := p;
     Monster.velocity := Monster.velocity m;
     Monster.waypoint_index := Monster.waypoint_index m;
     Monster.damage := Monster.damage m |}.

Definition set_health (m : Monster) (h : Z) : Monster :=
  {| Monster.health := h;
     Monster.position := Monster.position m;
     Monster.velocity := Monster.velocity m;
     Monster.waypoint_index := Monster.waypoint_index m;
     Monster.damage := Monster.damage m |}.

(** The direction from the monster to the waypoint it targets: [xdir] and
    [ydir] of [UpdateMonster]. *)
Definition monster_dir (monster : Monster) (wp : Waypoint) : float * float :=
  (F32.sub (x (Waypoint.position wp)) (x (Monster.position monster)),
   F32.sub (y (Waypoint.position wp)) (y (Monster.position monster))).

(** "Are we on the targeted Waypoint?" *)
Definition near (monster : Monster) (wp : Waypoint) : bool :=
  F32.leb (Distance (Monster.position monster) (Waypoint.position wp)) PROXIMITY.

(** The last four statements of [UpdateMonster]: head for the targeted
    waypoint and report alive. *)
Definition move_monster (monster : Monster) (DeltaTime : float)
    (waypoints : list Waypoint) (player_health : Z)
  : outcome (bool * Monster * Z) :=
  wp ← vec_at waypoints (Monster.waypoint_index monster);
  let '(xdir, ydir) := monster_dir monster wp in
  let normalized_dir := Normalize xdir ydir in
  Ok (true,
      set_monster_position monster
        (advance (Monster.position monster) normalized_dir MONSTER_SPEED DeltaTime),
      player_health).

(** [UpdateMonster]: the flag is [false] when the monster is dead; the
    monster and the player's health are the two references of the C++
    function, as the call leaves them. *)
Definition UpdateMonster (monster : Monster) (DeltaTime : float)
    (waypoints : list Waypoint) (player_health : Z)
  : outcome (bool * Monster * Z) :=
  if Monster.health monster <=? 0 then Ok (false, monster, player_health)
  else if size waypoints =? 1 then Ok (false, monster, player_health)
  else
    wp ← vec_at waypoints (Monster.waypoint_index monster);
    if near monster wp then
      (* [waypoints.size() - 1] is a [size_t]; the vector holds [wp], so
         the subtraction does not wrap. *)
      if size waypoints - 1 =? Monster.waypoint_index monster
      then Ok (false, monster, wrap32 (player_health - Monster.damage monster))
      else
        move_monster
          (set_waypoint_index monster (wrap32 (Monster.waypoint_index monster + 1)))
          DeltaTime waypoints player_health
    else move_monster monster DeltaTime waypoints player_health.

(** ** The tower system *)

Definition set_timer (t : Tower) (v : float) : Tower :=
  {| Tower.position := Tower.position t;
     Tower.range := Tower.range t;
     Tower.attackRate := Tower.attackRate t;
     Tower.timer := v |}.

(** The bullet that a tower fires at the monster of index [i]. *)
Definition fired_bullet (tower : Tower) (i : Z) : Bullet :=
  {| Bullet.position :=
       {| x := x (Tower.position tower); y := y (Tower.position tower) |};
     Bullet.velocity := {| vx := F32.zero; vy := F32.zero |};
     Bullet.damage := SHOT_DAMAGE;
     Bullet.target_index := i |}.

(** Is the monster in range of the tower? *)
Definition in_range (tower : Tower) (m : Monster) : bool :=
  F32.leb (Distance (Tower.position tower) (Monster.position m)) (Tower.range tower).

(** Has enough time passed for the tower to fire again? *)
Definition ready (tower : Tower) : bool :=
  F32.geb (Tower.timer tower) (Tower.attackRate tower).

(** The [for] loop of [UpdateTower], from index [i] on; [tower] already
    carries the accumulated timer. *)
Fixpoint UpdateTower_loop (fuel : nat) (tower : Tower)
    (monsters : list Monster) (bullets : list Bullet) (i : Z)
  : outcome (Tower * list Bullet) :=
  if i <? size monsters then
    match fuel with
    | O => OutOfFuel
    | S fuel' =>
        m ← vec_at monsters i;
        if in_range tower m then
          if ready tower then
            Ok (set_timer tower F32.zero, bullets ++ [fired_bullet tower i])
          else UpdateTower_loop fuel' tower monsters bullets (wrap32 (i + 1))
        else UpdateTower_loop fuel' tower monsters bullets (wrap32 (i + 1))
    end
  else Ok (tower, bullets).

Definition UpdateTower (tower : Tower) (DeltaTime : float)
    (monsters : list Monster) (bullets : list Bullet)
  : outcome (Tower * list Bullet) :=
  let tower := set_timer tower (F32.add (Tower.timer tower) DeltaTime) in
  UpdateTower_loop (length monsters) tower monsters bullets 0.

(** ** The bullet system *)

Definition set_target_index (b : Bullet) (i : Z) : Bullet :=
  {| Bullet.position := Bullet.position b;
     Bullet.velocity := Bullet.velocity b;
     Bullet.damage := Bullet.damage b;
     Bullet.target_index := i |}.

Definition set_bullet_position (b : Bullet) (p : Position) : Bullet :=
  {| Bullet.position := p;
     Bullet.velocity := Bullet.velocity b;
     Bullet.damage := Bullet.damage b;
     Bullet.target_index := Bullet.target_index b |}.

(** The second [if] of [UpdateBullet]: a bullet whose target index is past
    the end of [monsters] targets the last monster. *)
Definition retarget (bullet : Bullet) (monsters : list Monster) : Bullet :=
  if (size monsters <=? Bullet.target_index bullet) && negb (size monsters =? 0)
  then set_target_index bullet (wrap32 (wrap32 (size monsters) - 1))
  else bullet.

(** The bullet after its move towards the monster [target]. *)
Definition home_in (bullet : Bullet) (DeltaTime : float) (target : Monster)
  : Bullet :=
  let xdir := F32.sub (x (Monster.position target)) (x (Bullet.position bullet)) in
  let ydir := F32.sub (y (Monster.position target)) (y (Bullet.position bullet)) in
  let normalized_dir := Normalize xdir ydir in
  set_bullet_position bullet
    (advance (Bullet.position bullet) normalized_dir BULLET_SPEED DeltaTime).

(** Has the bullet hit the monster? *)
Definition hits (bullet : Bullet) (target : Monster) : bool :=
  F32.leb (Distance (Bullet.position bullet) (Monster.position target)) BULLET_RADIUS.

(** [UpdateBullet]: the flag is [false] when the bullet hit a monster or no
    monster is left. *)
Definition UpdateBullet (bullet : Bullet) (DeltaTime : float)
    (monsters : list Monster)
  : outcome (bool * Bullet * list Monster) :=
  if size monsters =? 0 then Ok (false, bullet, monsters)
  else
    let bullet := retarget bullet monsters in
    target ← vec_at monsters (Bullet.target_index bullet);
    let bullet := home_in bullet DeltaTime target in
    if hits bullet target then
      Ok (false, bullet,
          vec_set monsters (Bullet.target_index bullet)
            (set_health target
               (wrap32 (Monster.health target - Bullet.damage bullet))))
    else Ok (true, bullet, monsters).

(** ** The update loops of [main]

    The monster loop and the bullet loop of [main] are the same scan: call
    the update of the entity at index [i] through a reference; when it
    reports dead, copy the last entity over it field by field, pop the
    vector, and step the index back so that the [++i] of the loop lands on
    the same index again.  They differ in the entity, in what the update
    may touch besides it ([env]: the player's health for monsters, the
    monsters for bullets) and in the bookkeeping of a removal (the monster
    loop counts a kill). *)

Section Scan.

Context {E G : Type}.
Variable update : E -> G -> outcome (bool * E * G).
Variable assign : E -> E -> E.
Variable on_remove : G -> G.

Record scan_state : Type := {
  sc_i : Z;
  sc_items : list E;
  sc_env : G
}.

(** One turn of the loop: its body, then its [++i]. *)
Definition scan_body (s : scan_state) : outcome scan_state :=
  e ← vec_at (sc_items s) (sc_i s);
  '(alive, e', env') ← update e (sc_env s);
  let items := vec_set (sc_items s) (sc_i s) e' in
  if alive : bool then
    Ok {| sc_i := wrap32 (sc_i s + 1); sc_items := items; sc_env := env' |}
  else
    (* [last] is a [size_t]; [items] holds index [i], so no wrap. *)
    let last := size items - 1 in
    dst ← vec_at items (sc_i s);
    src ← vec_at items last;
    let items := pop_back (vec_set items (sc_i s) (assign dst src)) in
    Ok {| sc_i := wrap32 (wrap32 (sc_i s - 1) + 1);
          sc_items := items;
          sc_env := on_remove env' |}.

Fixpoint scan_loop (fuel : nat) (s : scan_state) : outcome scan_state :=
  if sc_i s <? size (sc_items s) then
    match fuel with
    | O => OutOfFuel
    | S fuel' => s' ← scan_body s; scan_loop fuel' s'
    end
  else Ok s.

(** The whole loop, from [i = 0]: every turn either moves the index on or
    shortens the vector, so the length of the vector is fuel enough. *)
Definition scan (items : list E) (env : G) : outcome (list E * G) :=
  s ← scan_loop (length items) {| sc_i := 0; sc_items := items; sc_env := env |};
  Ok (sc_items s, sc_env s).

End Scan.

Arguments scan_state : clear implicits.

(** What the monster loop reaches besides the monsters. *)
Record tally : Type := {
  player_health : Z;
  monsters_killed : Z
}.

(** [UpdateMonster(monsters[i], DeltaTime, waypoints, player_health)]. *)
Definition monster_update (DeltaTime : float) (waypoints : list Waypoint)
    (m : Monster) (t : tally) : outcome (bool * Monster * tally) :=
  '(alive, m', ph) ← UpdateMonster m DeltaTime waypoints (player_health t);
  Ok (alive, m', {| player_health := ph; monsters_killed := monsters_killed t |}).

(** The seven assignments [monsters[i].f = monsters[last].f]. *)
Definition assign_monster (dst src : Monster) : Monster :=
  {| Monster.health := Monster.health src;
     Monster.position :=
       {| x := x (Monster.position src); y := y (Monster.position src) |};
     Monster.velocity :=
       {| vx := vx (Monster.velocity src); vy := vy (Monster.velocity src) |};
     Monster.waypoint_index := Monster.waypoint_index src;
     Monster.damage := Monster.damage src |}.

(** [++monsters_killed]. *)
Definition count_kill (t : tally) : tally :=
  {| player_health := player_health t;
     monsters_killed := wrap32 (monsters_killed t + 1) |}.

Definition monsters_body (DeltaTime : float) (waypoints : list Waypoint)
  : scan_state Monster tally -> outcome (scan_state Monster tally) :=
  scan_body (monster_update DeltaTime waypoints) assign_monster count_kill.

Definition monsters_pass (DeltaTime : float) (waypoints : list Waypoint)
    (monsters : list Monster) (t : tally) : outcome (list Monster * tally) :=
  scan (monster_update DeltaTime waypoints) assign_monster count_kill monsters t.

(** The six assignments [bullets[i].f = bullets[last].f]. *)
Definition assign_bullet (dst src : Bullet) : Bullet :=
  {| Bullet.position :=
       {| x := x (Bullet.position src); y := y (Bullet.position src) |};
     Bullet.velocity :=
       {| vx := vx (Bullet.velocity src); vy := vy (Bullet.velocity src) |};
     Bullet.damage := Bullet.damage src;
     Bullet.target_index := Bullet.target_index src |}.

Definition bullets_body (DeltaTime : float)
  : scan_state Bullet (list Monster) -> outcome (scan_state Bullet (list Monster)) :=
  scan_body (fun b ms => UpdateBullet b DeltaTime ms) assign_bullet (fun ms => ms).

Definition bullets_pass (DeltaTime : float) (bullets : list Bullet)
    (monsters : list Monster) : outcome (list Bullet * list Monster) :=
  scan (fun b ms => UpdateBullet b DeltaTime ms) assign_bullet (fun ms => ms)
    bullets monsters.

(** The tower loop: no tower is ever removed. *)
Fixpoint towers_loop (fuel : nat) (DeltaTime : float) (monsters : list Monster)
    (i : Z) (towers : list Tower) (bullets : list Bullet)
  : outcome (list Tower * list Bullet) :=
  if i <? size towers then
    match fuel with
    | O => OutOfFuel
    | S fuel' =>
        t ← vec_at towers i;
        '(t', bullets') ← UpdateTower t DeltaTime monsters bullets;
        towers_loop fuel' DeltaTime monsters (wrap32 (i + 1))
          (vec_set towers i t') bullets'
    end
  else Ok (towers, bullets).

Definition towers_pass (DeltaTime : float) (monsters : list Monster)
    (towers : list Tower) (bullets : list Bullet)
  : outcome (list Tower * list Bullet) :=
  towers_loop (length towers) DeltaTime monsters 0 towers bullets.

(** The entities and counters that [main] owns. *)
Record Game : Type := {
  monsters : list Monster;
  waypoints : list Waypoint;
  towers : list Tower;
  bullets : list Bullet;
  session : tally
}.

(** One turn of the main loop, from "Update monsters" to the end of
    "Update bullets". *)
Definition frame (DeltaTime : float) (g : Game) : outcome Game :=
  '(ms, t) ← monsters_pass DeltaTime (waypoints g) (monsters g) (session g);
  '(ts, bs) ← towers_pass DeltaTime ms (towers g) (bullets g);
  '(bs', ms') ← bullets_pass DeltaTime bs ms;
  Ok {| monsters := ms'; waypoints := waypoints g; towers := ts;
        bullets := bs'; session := t |}.

(** "If health == 0, game over!" *)
Definition game_over (g : Game) : bool := player_health (session g) =? 0.

(** ** The commands of [main]

    What the event loop of [main] puts into the vectors. *)

Definition at_pixel (a b : Z) : Position :=
  {| x := F32.of_Z a; y := F32.of_Z b |}.

(** A left click at pixel [(a, b)]. *)
Definition waypoint_at (a b : Z) : Waypoint :=
  {| Waypoint.position := at_pixel a b |}.

(** The waypoint that [main] starts with. *)
Definition start_waypoint : Waypoint := waypoint_at 150 150.

(** The space key: a monster on the first waypoint. *)
Definition spawn (wp0 : Waypoint) : Monster :=
  {| Monster.health := 100;
     Monster.position :=
       {| x := x (Waypoint.position wp0); y := y (Waypoint.position wp0) |};
     Monster.velocity := {| vx := F32.zero; vy := F32.zero |};
     Monster.waypoint_index := 0;
     Monster.damage := 5 |}.

(** A right click at pixel [(a, b)]. *)
Definition tower_at (a b : Z) : Tower :=
  {| Tower.position := at_pixel a b;
     Tower.range := F32.of_Z 100;
     Tower.attackRate := F32.lit 3 (-1);
     Tower.timer := F32.zero |}.

(** A frame time of one sixty-fourth of a second. *)
Definition tick : float := F32.lit 1 (-6).

(** ** Vocabulary of the properties *)

(** The monster targets the last waypoint and is on it. *)
Definition arrived (m : Monster) (wps : list Waypoint) : Prop :=
  exists wp, vec_at wps (Monster.waypoint_index m) = Ok wp /\
    near m wp = true /\ Monster.waypoint_index m = size wps - 1.

(** The waypoint index of the monster is inside the waypoint sequence. *)
Definition on_path (wps : list Waypoint) (m : Monster) : Prop :=
  0 <= Monster.waypoint_index m < size wps.

(** The paths through [UpdateMonster], each with the result it returns. *)
Inductive UpdateMonster_path (m : Monster) (dt : float) (wps : list Waypoint)
    (ph : Z) : outcome (bool * Monster * Z) -> Prop :=
| path_dead :
    Monster.health m <= 0 ->
    UpdateMonster_path m dt wps ph (Ok (false, m, ph))
| path_degenerate :
    0 < Monster.health m -> size wps = 1 ->
    UpdateMonster_path m dt wps ph (Ok (false, m, ph))
| path_no_target :
    0 < Monster.health m -> size wps <> 1 ->
    vec_at wps (Monster.waypoint_index m) = OutOfBounds ->
    UpdateMonster_path m dt wps ph OutOfBounds
| path_goal wp :
    0 < Monster.health m -> size wps <> 1 ->
    vec_at wps (Monster.waypoint_index m) = Ok wp ->
    near m wp = true -> size wps - 1 = Monster.waypoint_index m ->
    UpdateMonster_path m dt wps ph
      (Ok (false, m, wrap32 (ph - Monster.damage m)))
| path_next wp :
    0 < Monster.health m -> size wps <> 1 ->
    vec_at wps (Monster.waypoint_index m) = Ok wp ->
    near m wp = true -> size wps - 1 <> Monster.waypoint_index m ->
    UpdateMonster_path m dt wps ph
      (move_monster
         (set_waypoint_index m (wrap32 (Monster.waypoint_index m + 1)))
         dt wps ph)
| path_move wp :
    0 < Monster.health m -> size wps <> 1 ->
    vec_at wps (Monster.waypoint_index m) = Ok wp ->
    near m wp = false ->
    UpdateMonster_path m dt wps ph (move_monster m dt wps ph).

(** What a call of [UpdateTower] made of the tower [armed] (the tower with
    its timer brought up to date) and of the bullets [bs], read off the
    result [(t', bs')]: either nothing was fired, or one bullet was fired at
    the monster of index [i]. *)
Definition held_fire (armed : Tower) (ms : list Monster)
    (bs : list Bullet) (t' : Tower) (bs' : list Bullet) : Prop :=
  bs' = bs /\ t' = armed /\
  (ready armed = false \/
   forall j mj, ms !! j = Some mj -> in_range armed mj = false).

Definition fired_at (armed : Tower) (ms : list Monster)
    (bs : list Bullet) (t' : Tower) (bs' : list Bullet) (i : nat) : Prop :=
  (exists m, ms !! i = Some m /\ in_range armed m = true) /\
  (forall j mj, (j < i)%nat -> ms !! j = Some mj ->
                in_range armed mj = false) /\
  ready armed = true /\
  bs' = bs ++ [fired_bullet armed (Z.of_nat i)] /\
  t' = set_timer armed F32.zero.

(** The removal of the compaction policy, on the vector alone: the record at
    index [i] is overwritten with the last record, and the vector loses its
    last slot. *)
Definition swap_remove {A : Type} (i : nat) (v : list A) : list A :=
  match list.last v with
  | Some a => pop_back (<[i := a]> v)
  | None => v
  end.

(** A game whose vectors the 32-bit loop indices can walk, whose monsters
    are on the path, and whose counters and target indices are 32-bit
    unsigned values. *)
Definition playable (g : Game) : Prop :=
  size (monsters g) < 2 ^ 32 /\
  size (towers g) + size (bullets g) < 2 ^ 32 /\
  Forall (on_path (waypoints g)) (monsters g) /\
  Forall (fun b => uint32 (Bullet.target_index b)) (bullets g) /\
  uint32 (monsters_killed (session g)).

(** ** Situations of a game

    The concrete inputs on which the properties below are exercised. *)

(** The start of a game with a second waypoint to the right of the first
    one, and a monster that has just been spawned. *)
Definition two_waypoints : list Waypoint :=
  [start_waypoint; waypoint_at 300 150].

Definition fresh_monster : Monster := spawn start_waypoint.

Definition opening_tally : tally :=
  {| player_health := 100; monsters_killed := 0 |}.

(** A monster on the last waypoint of [two_waypoints], targeting it. *)
Definition monster_at_goal : Monster :=
  {| Monster.health := 100;
     Monster.position := at_pixel 299 150;
     Monster.velocity := {| vx := F32.zero; vy := F32.zero |};
     Monster.waypoint_index := 1;
     Monster.damage := 5 |}.

(** A second waypoint one pixel to the right of the first one. *)
Definition close_waypoints : list Waypoint :=
  [start_waypoint; waypoint_at 151 150].

(** A left click on the start waypoint: two waypoints on one pixel. *)
Definition stacked_waypoints : list Waypoint :=
  [start_waypoint; waypoint_at 150 150].

(** A bullet in flight whose target index is past the end of a vector of
    one monster. *)
Definition stray_bullet : Bullet :=
  {| Bullet.position := at_pixel 100 150;
     Bullet.velocity := {| vx := F32.zero; vy := F32.zero |};
     Bullet.damage := SHOT_DAMAGE;
     Bullet.target_index := 2 |}.

(** A tower five pixels to the right of the start waypoint that has
    waited long enough to fire. *)
Definition ready_tower : Tower :=
  set_timer (tower_at 155 150) (F32.lit 3 (-1)).

(** A spawned monster in front of three such towers built on one spot. *)
Definition ambush : Game :=
  {| monsters := [fresh_monster];
     waypoints := two_waypoints;
     towers := [ready_tower; ready_tower; ready_tower];
     bullets := [];
     session := opening_tally |}.

(** A tower on the start waypoint with its timer at the attack rate, and a
    monster fifty pixels to its right. *)
Definition loaded_tower : Tower :=
  set_timer (tower_at 150 150) (F32.lit 3 (-1)).

Definition monster_in_range : Monster :=
  set_monster_position fresh_monster (at_pixel 200 150).

(** The start of a game, after the space key. *)
Definition first_spawn : Game :=
  {| monsters := [fresh_monster];
     waypoints := [start_waypoint];
     towers := [];
     bullets := [];
     session := opening_tally |}.

(** The same with the monster fifty pixels away from the only waypoint. *)
Definition off_path_spawn : Game :=
  {| monsters := [monster_in_range];
     waypoints := [start_waypoint];
     towers := [];
     bullets := [];
     session := opening_tally |}.

(** A monster far from the waypoint it targets, and a bullet far from that
    monster: with a frame time of zero their updates report them alive and
    leave them as they are. *)
Definition resting_monsters : list Monster :=
  [monster_in_range; set_health monster_in_range 50].

Definition resting_bullets : list Bullet :=
  [fired_bullet loaded_tower 0; fired_bullet loaded_tower 1].

(** [monster_in_range] one tick closer to the start waypoint, and the bullet
    of [loaded_tower] one tick closer to that monster. *)
Definition moved_monster : Monster :=
  set_monster_position monster_in_range
    {| x := F32.lit 3175 (-4); y := F32.of_Z 150 |}.

Definition moved_bullet : Bullet :=
  set_bullet_position (fired_bullet loaded_tower 0)
    {| x := F32.lit 9750 (-6); y := F32.of_Z 150 |}.

(** The monster loop about to examine a monster without health at index 0
    of three, and the bullet loop about to examine, at index 0 of two, a
    bullet that is on its target. *)
Definition monsters_turn : scan_state Monster tally :=
  {| sc_i := 0;
     sc_items := [set_health monster_in_range 0; fresh_monster; monster_at_goal];
     sc_env := opening_tally |}.

Definition bullets_turn : scan_state Bullet (list Monster) :=
  {| sc_i := 0;
     sc_items := [fired_bullet ready_tower 0; fired_bullet loaded_tower 1];
     sc_env := [fresh_monster; monster_in_range] |}.

(** ** Vocabulary of the further properties *)

(** Two states of one tower: the timer apart, nothing differs. *)
Definition same_place (t t' : Tower) : Prop :=
  Tower.position t' = Tower.position t /\
  Tower.range t' = Tower.range t /\
  Tower.attackRate t' = Tower.attackRate t.

(** A bullet as a tower of [ts] fires it at a monster of [ms]. *)
Definition shot_from (ts : list Tower) (ms : list Monster) (b : Bullet) : Prop :=
  Bullet.damage b = SHOT_DAMAGE /\
  Bullet.velocity b = {| vx := F32.zero; vy := F32.zero |} /\
  0 <= Bullet.target_index b < size ms /\
  exists j t, ts !! j = Some t /\ Bullet.position b = Tower.position t.

(** The monster targets a waypoint that exists. *)
Definition has_target (wps : list Waypoint) (m : Monster) : Prop :=
  exists wp, vec_at wps (Monster.waypoint_index m) = Ok wp.

(** The bullet targets a monster that exists. *)
Definition tracks (ms : list Monster) (b : Bullet) : Prop :=
  exists m, vec_at ms (Bullet.target_index b) = Ok m.

(** A game in which no system reads outside a vector: there is a waypoint
    to spawn on, the monsters target waypoints of the sequence, and the
    target indices of the bullets are unsigned 32-bit values. *)
Definition safe (g : Game) : Prop :=
  waypoints g <> [] /\
  Forall (on_path (waypoints g)) (monsters g) /\
  Forall (fun b => uint32 (Bullet.target_index b)) (bullets g).

(** ** The event loop of [main]

    The events that [window.pollEvent] delivers, as far as [main] tells them
    apart.  A mouse event carries the position that
    [sf::Mouse::getPosition(window)] returns while it is handled, a pair of
    [int]s.  Closing the window changes no entity, so the window is not part
    of the state. *)

Inductive Key : Type := Escape | Space | OtherKey.

Inductive MouseButton : Type := LeftButton | RightButton | OtherButton.

Inductive Event : Type :=
| Closed
| KeyPressed (code : Key)
| MouseButtonPressed (button : MouseButton) (click_x click_y : Z)
| OtherEvent.

(** Does the event close the window? *)
Definition closes_window (event : Event) : bool :=
  match event with
  | Closed | KeyPressed Escape => true
  | _ => false
  end.

(** The body of the [while (window.pollEvent(event))] loop, on the
    entities. *)
Definition handle_event (event : Event) (g : Game) : outcome Game :=
  match event with
  | KeyPressed Space =>
      wp0 ← vec_at (waypoints g) 0;
      Ok {| monsters := monsters g ++ [spawn wp0]; waypoints := waypoints g;
            towers := towers g; bullets := bullets g; session := session g |}
  | MouseButtonPressed LeftButton click_x click_y =>
      Ok {| monsters := monsters g;
            waypoints := waypoints g ++ [waypoint_at click_x click_y];
            towers := towers g; bullets := bullets g; session := session g |}
  | MouseButtonPressed RightButton click_x click_y =>
      Ok {| monsters := monsters g; waypoints := waypoints g;
            towers := towers g ++ [tower_at click_x click_y];
            bullets := bullets g; session := session g |}
  | _ => Ok g
  end.

(** The events of one turn of the main loop, in the order of delivery. *)
Fixpoint handle_events (events : list Event) (g : Game) : outcome Game :=
  match events with
  | [] => Ok g
  | event :: rest => g' ← handle_event event g; handle_events rest g'
  end.

(** The vectors and counters of [main] before its loop. *)
Definition initial_game : Game :=
  {| monsters := []; waypoints := [start_waypoint]; towers := []; bullets := [];
     session := {| player_health := 100; monsters_killed := 0 |} |}.

(** One turn of the main loop up to its "game over" test: the events, the
    three update loops, and whether [main] returns 1. *)
Definition main_turn (events : list Event) (DeltaTime : float) (g : Game)
  : outcome (Game * bool) :=
  g1 ← handle_events events g;
  g2 ← frame DeltaTime g1;
  Ok (g2, game_over g2).

(** The games that the main loop can be in at the start of a turn. *)
Inductive reachable : Game -> Prop :=
| reach_start : reachable initial_game
| reach_turn g events dt g' :
    reachable g -> main_turn events dt g = Ok (g', false) -> reachable g'.

(** Every vector of [g'] starts with the vector of [g]. *)
Definition extends (g g' : Game) : Prop :=
  monsters g `prefix_of` monsters g' /\
  waypoints g `prefix_of` waypoints g' /\
  towers g `prefix_of` towers g' /\
  bullets g = bullets g' /\ session g = session g'.

(** ** Kinds of floats and of positions *)

Definition is_nan (a : float) : bool :=
  match a with S754_nan => true | _ => false end.

(** Neither a NaN nor an infinity. *)
Definition is_finite (a : float) : bool :=
  match a with S754_zero _ | S754_finite _ _ _ => true | _ => false end.

(** One coordinate at least is a NaN. *)
Definition nan_position (p : Position) : bool := is_nan (x p) || is_nan (y p).

Definition finite_position (p : Position) : bool :=
  is_finite (x p) && is_finite (y p).

(** A first turn of the main loop: a left click at pixel (300, 150), then
    the space key; and the game after that turn. *)
Definition opening_events : list Event :=
  [MouseButtonPressed LeftButton 300 150; KeyPressed Space].

Definition after_opening : Game :=
  Eval vm_compute in
    match main_turn opening_events tick initial_game with
    | Ok (g, _) => g
    | _ => initial_game
    end.

(** The spawned monster after its first update on [stacked_waypoints]: its
    position is undefined. *)
Definition lost_monster : Monster :=
  set_monster_position (set_waypoint_index fresh_monster 1)
    {| x := S754_nan; y := S754_nan |}.

(** ** Rendering of the monsters

    [DrawMonsters] configures three [sf::RectangleShape]s and, per monster,
    moves them and hands them to [target.draw].  A shape is the record of
    what the function sets on it (the outline is [None] while the function
    leaves it alone), and the render target is the sequence of the shapes
    drawn so far, each as it was at its [draw] call. *)

Definition MONSTER_SIZE : float := F32.of_Z 32.
Definition MONSTER_MAX_HEALTH : Z := 100.

Inductive Color : Type := Red | Green | Black.

Module RectangleShape.
Record t : Type := {
  fill : Color;
  extent : Vector2f;
  origin : Vector2f;
  outline : option (float * Color);
  place : Vector2f
}.
End RectangleShape.
Abbreviation RectangleShape := RectangleShape.t.

Definition setSize (s : RectangleShape) (v : Vector2f) : RectangleShape :=
  {| RectangleShape.fill := RectangleShape.fill s;
     RectangleShape.extent := v;
     RectangleShape.origin := RectangleShape.origin s;
     RectangleShape.outline := RectangleShape.outline s;
     RectangleShape.place := RectangleShape.place s |}.

Definition setPosition (s : RectangleShape) (px py : float) : RectangleShape :=
  {| RectangleShape.fill := RectangleShape.fill s;
     RectangleShape.extent := RectangleShape.extent s;
     RectangleShape.origin := RectangleShape.origin s;
     RectangleShape.outline := RectangleShape.outline s;
     RectangleShape.place := {| v2x := px; v2y := py |} |}.

(** [const float bar_height = 3.0f]. *)
Definition bar_height : float := F32.of_Z 3.

(** The three shapes as the function has set them up before its loop; no
    position is set yet, a shape starts at the origin of the target. *)
Definition monster_shape : RectangleShape :=
  {| RectangleShape.fill := Red;
     RectangleShape.extent := {| v2x := MONSTER_SIZE; v2y := MONSTER_SIZE |};
     RectangleShape.origin :=
       {| v2x := F32.div MONSTER_SIZE (F32.of_Z 2);
          v2y := F32.div MONSTER_SIZE (F32.of_Z 2) |};
     RectangleShape.outline := None;
     RectangleShape.place := {| v2x := F32.zero; v2y := F32.zero |} |}.

Definition healthBar_shape : RectangleShape :=
  {| RectangleShape.fill := Red;
     RectangleShape.extent := {| v2x := MONSTER_SIZE; v2y := bar_height |};
     RectangleShape.origin :=
       {| v2x := F32.div MONSTER_SIZE (F32.of_Z 2);
          v2y := F32.div bar_height (F32.of_Z 2) |};
     RectangleShape.outline := Some (F32.of_Z 1, Black);
     RectangleShape.place := {| v2x := F32.zero; v2y := F32.zero |} |}.

Definition health_shape : RectangleShape :=
  {| RectangleShape.fill := Green;
     RectangleShape.extent := {| v2x := MONSTER_SIZE; v2y := bar_height |};
     RectangleShape.origin :=
       {| v2x := F32.div MONSTER_SIZE (F32.of_Z 2);
          v2y := F32.div bar_height (F32.of_Z 2) |};
     RectangleShape.outline := None;
     RectangleShape.place := {| v2x := F32.zero; v2y := F32.zero |} |}.

(** [MONSTER_SIZE * (health / (float)MONSTER_MAX_HEALTH)]: the unsigned
    health is converted to [float] for the division. *)
Definition health_width (health : Z) : float :=
  F32.mul MONSTER_SIZE (F32.div (F32.of_Z health) (F32.of_Z MONSTER_MAX_HEALTH)).

(** [position.y - (MONSTER_SIZE / 2.0f) - 5.0f]. *)
Definition bar_y (p : Position) : float :=
  F32.sub (F32.sub (y p) (F32.div MONSTER_SIZE (F32.of_Z 2))) (F32.of_Z 5).

(** The loop of [DrawMonsters], from index [i] on; the three shapes keep
    what earlier iterations set on them. *)
Fixpoint DrawMonsters_loop (fuel : nat) (monsters : list Monster) (i : Z)
    (shape healthBar health : RectangleShape) (target : list RectangleShape)
  : outcome (list RectangleShape) :=
  if i <? size monsters then
    match fuel with
    | O => OutOfFuel
    | S fuel' =>
        m ← vec_at monsters i;
        let shape :=
          setPosition shape (x (Monster.position m)) (y (Monster.position m)) in
        let target := target ++ [shape] in
        let healthBar :=
          setPosition healthBar (x (Monster.position m))
            (bar_y (Monster.position m)) in
        let target := target ++ [healthBar] in
        let health :=
          setSize health
            {| v2x := health_width (Monster.health m); v2y := bar_height |} in
        let health :=
          setPosition health (x (Monster.position m))
            (bar_y (Monster.position m)) in
        let target := target ++ [health] in
        DrawMonsters_loop fuel' monsters (wrap32 (i + 1))
          shape healthBar health target
    end
  else Ok target.

Definition DrawMonsters (monsters : list Monster)
    (target : list RectangleShape) : outcome (list RectangleShape) :=
  DrawMonsters_loop (length monsters) monsters 0
    monster_shape healthBar_shape health_shape target.

(** What one monster adds to the target. *)
Definition monster_picture (m : Monster) : list RectangleShape :=
  [ setPosition monster_shape (x (Monster.position m)) (y (Monster.position m));
    setPosition healthBar_shape (x (Monster.position m))
      (bar_y (Monster.position m));
    setPosition
      (setSize health_shape
         {| v2x := health_width (Monster.health m); v2y := bar_height |})
      (x (Monster.position m)) (bar_y (Monster.position m)) ].

(** The green bar lies on the red one and is no wider. *)
Definition bar_fits (red green : RectangleShape) : Prop :=
  RectangleShape.place green = RectangleShape.place red /\
  RectangleShape.origin green = RectangleShape.origin red /\
  v2y (RectangleShape.extent green) = v2y (RectangleShape.extent red) /\
  F32.leb F32.zero (v2x (RectangleShape.extent green)) = true /\
  F32.leb (v2x (RectangleShape.extent green))
          (v2x (RectangleShape.extent red)) = true.

(** One row of the table of bar widths: the width for health [h] is within
    [0 .. MONSTER_SIZE] and strictly below the width for [h + 1]. *)
Definition width_ok (h : nat) : bool :=
  F32.leb F32.zero (health_width (Z.of_nat h)) &&
  F32.leb (health_width (Z.of_nat h)) MONSTER_SIZE &&
  SFltb (health_width (Z.of_nat h)) (health_width (Z.of_nat (S h))).

(** A shape that differs from [s0] in its position at most, and one that
    may differ in its size as well. *)
Definition moved (s0 s : RectangleShape) : Prop :=
  forall px py, setPosition s px py = setPosition s0 px py.

Definition resized (s0 s : RectangleShape) : Prop :=
  forall v px py,
    setPosition (setSize s v) px py = setPosition (setSize s0 v) px py.

(** * Properties *)

(** ** Machine integers and vectors *)

Lemma wrap32_range (z : Z) : uint32 (wrap32 z).
Proof. unfold uint32, wrap32. apply Z.mod_pos_bound. lia. Qed.

Lemma wrap32_small (z : Z) : uint32 z -> wrap32 z = z.
Proof. unfold uint32, wrap32. intros H. apply Z.mod_small. lia. Qed.

Lemma wrap32_le (z : Z) : 0 <= z -> wrap32 z <= z.
Proof. unfold wrap32. intros H. apply Z.mod_le; lia. Qed.

Lemma wrap32_idem_add (a b : Z) : wrap32 (wrap32 a + b) = wrap32 (a + b).
Proof. unfold wrap32. apply Zplus_mod_idemp_l. Qed.

(** [--i] followed by [++i] gives [i] back, also at [i = 0]. *)
Lemma wrap32_pred_succ (i : Z) : uint32 i -> wrap32 (wrap32 (i - 1) + 1) = i.
Proof.
  intros H. rewrite wrap32_idem_add.
  replace (i - 1 + 1) with i by lia. now apply wrap32_small.
Qed.

Lemma vec_at_Ok {A : Type} (v : list A) (i : Z) (a : A) :
  vec_at v i = Ok a <-> v !! Z.to_nat i = Some a.
Proof.
  unfold vec_at. destruct (v !! Z.to_nat i); split; intros H; congruence.
Qed.

Lemma vec_at_in_range {A : Type} (v : list A) (i : Z) :
  0 <= i < size v -> exists a, vec_at v i = Ok a.
Proof.
  unfold size. intros H.
  destruct (lookup_lt_is_Some_2 v (Z.to_nat i)) as [a Ha]; [lia|].
  exists a. now apply vec_at_Ok.
Qed.

Lemma size_vec_set {A : Type} (v : list A) (i : Z) (a : A) :
  size (vec_set v i a) = size v.
Proof. unfold size, vec_set. now rewrite length_insert. Qed.

(** ** The monster system *)

Lemma move_monster_alive (m : Monster) (dt : float) (wps : list Waypoint)
    (ph : Z) (r : bool * Monster * Z) :
  move_monster m dt wps ph = Ok r ->
  r.1.1 = true /\ r.2 = ph /\
  Monster.waypoint_index r.1.2 = Monster.waypoint_index m /\
  Monster.health r.1.2 = Monster.health m /\
  Monster.damage r.1.2 = Monster.damage m.
Proof.
  unfold move_monster. destruct (vec_at wps _) as [wp| |]; simpl; try discriminate.
  intros [= <-]. simpl. auto.
Qed.

(** [UpdateMonster] takes one of its six paths. *)
Lemma UpdateMonster_view (m : Monster) (dt : float) (wps : list Waypoint)
    (ph : Z) :
  UpdateMonster_path m dt wps ph (UpdateMonster m dt wps ph).
Proof.
  unfold UpdateMonster.
  destruct (Z.leb_spec (Monster.health m) 0) as [Hh|Hh].
  { now apply path_dead. }
  destruct (Z.eqb_spec (size wps) 1) as [Hs|Hs].
  { now apply path_degenerate. }
  destruct (vec_at wps (Monster.waypoint_index m)) as [wp| |] eqn:Hwp; simpl.
  - destruct (near m wp) eqn:Hn.
    + destruct (Z.eqb_spec (size wps - 1) (Monster.waypoint_index m)) as [Hl|Hl].
      * now apply path_goal with wp.
      * now apply path_next with wp.
    + now apply path_move with wp.
  - now apply path_no_target.
  - unfold vec_at in Hwp. destruct (wps !! _); discriminate.
Qed.

Lemma move_monster_total (m : Monster) (dt : float) (wps : list Waypoint)
    (ph : Z) :
  0 <= Monster.waypoint_index m < size wps ->
  exists m', move_monster m dt wps ph = Ok (true, m', ph).
Proof.
  intros H. unfold move_monster.
  destruct (vec_at_in_range wps _ H) as [wp ->]. simpl. eauto.
Qed.

(** A dead report leaves the monster as it was, and tells why. *)
Lemma UpdateMonster_dead (m m' : Monster) (dt : float) (wps : list Waypoint)
    (ph ph' : Z) :
  UpdateMonster m dt wps ph = Ok (false, m', ph') ->
  m' = m /\
  ((Monster.health m <= 0 /\ ph' = ph) \/
   (0 < Monster.health m /\ size wps = 1 /\ ph' = ph) \/
   (0 < Monster.health m /\ size wps <> 1 /\ arrived m wps /\
    ph' = wrap32 (ph - Monster.damage m))).
Proof.
  intros H.
  destruct (UpdateMonster_view m dt wps ph)
    as [Hh|Hh Hs|Hh Hs Hwp|wp Hh Hs Hwp Hn Hl|wp Hh Hs Hwp Hn Hl|wp Hh Hs Hwp Hn].
  - injection H as <- <-. split; [reflexivity|lia].
  - injection H as <- <-. split; [reflexivity|lia].
  - discriminate.
  - injection H as <- <-. split; [reflexivity|]. right. right.
    repeat split; try assumption. exists wp. auto.
  - apply move_monster_alive in H. simpl in H. now destruct H.
  - apply move_monster_alive in H. simpl in H. now destruct H.
Qed.

(** An alive report leaves the player's health as it was. *)
Lemma UpdateMonster_alive (m m' : Monster) (dt : float) (wps : list Waypoint)
    (ph ph' : Z) :
  UpdateMonster m dt wps ph = Ok (true, m', ph') -> ph' = ph.
Proof.
  intros H. destruct (UpdateMonster_view m dt wps ph); try discriminate;
    apply move_monster_alive in H; simpl in H; tauto.
Qed.

(** C3, as amended: for every monster with positive health, if the waypoint
    sequence has exactly one waypoint, [UpdateMonster] reports the monster
    dead and neither moves it nor changes the player's health. *)
Theorem single_waypoint_discards (m : Monster) (dt : float)
    (wps : list Waypoint) (ph : Z) :
  0 < Monster.health m -> size wps = 1 ->
  UpdateMonster m dt wps ph = Ok (false, m, ph).
Proof.
  intros Hh Hs.
  destruct (UpdateMonster_view m dt wps ph); try reflexivity; lia.
Qed.

Lemma single_waypoint_discards_witness :
  0 < Monster.health fresh_monster /\ size [start_waypoint] = 1 /\
  UpdateMonster fresh_monster tick [start_waypoint] 100
  = Ok (false, fresh_monster, 100).
Proof.
  split; [reflexivity|]. split; [reflexivity|].
  apply single_waypoint_discards; reflexivity.
Defined.

(** C3 as stated fails without any waypoint: the guard tests for a size of
    exactly one, so with an empty sequence the monster is not reported dead;
    the function goes on to read [waypoints[0]], outside the vector. *)
Lemma no_waypoint_not_discarded :
  0 < Monster.health fresh_monster /\ size (@nil Waypoint) < 2 /\
  UpdateMonster fresh_monster tick [] 100 = OutOfBounds /\
  UpdateMonster fresh_monster tick [] 100 <> Ok (false, fresh_monster, 100).
Proof.
  split; [reflexivity|]. split; [reflexivity|].
  split; [reflexivity|discriminate].
Qed.

(** C9: a monster that survives [UpdateMonster], called with at least two
    waypoints and a waypoint index inside the sequence, has its waypoint
    index inside the sequence afterwards; the index grows by at most one,
    and changes only when the monster was within the proximity threshold of
    a targeted waypoint that is not the last.  Under these hypotheses the
    call does return. *)
Theorem waypoint_index_stays_valid (m : Monster) (dt : float)
    (wps : list Waypoint) (ph : Z) :
  2 <= size wps ->
  0 <= Monster.waypoint_index m < size wps ->
  (exists r, UpdateMonster m dt wps ph = Ok r) /\
  forall m' ph', UpdateMonster m dt wps ph = Ok (true, m', ph') ->
    0 <= Monster.waypoint_index m' < size wps /\
    Monster.waypoint_index m' <= Monster.waypoint_index m + 1 /\
    (Monster.waypoint_index m' = Monster.waypoint_index m \/
     Monster.waypoint_index m' = wrap32 (Monster.waypoint_index m + 1)) /\
    (Monster.waypoint_index m' <> Monster.waypoint_index m ->
     exists wp, vec_at wps (Monster.waypoint_index m) = Ok wp /\
       near m wp = true /\ Monster.waypoint_index m <> size wps - 1).
Proof.
  intros Hs Hi.
  assert (Hnext : size wps - 1 <> Monster.waypoint_index m ->
            0 <= wrap32 (Monster.waypoint_index m + 1) < size wps).
  { intros Hl. pose proof (wrap32_range (Monster.waypoint_index m + 1)) as Hr.
    pose proof (wrap32_le (Monster.waypoint_index m + 1)). unfold uint32 in Hr.
    lia. }
  destruct (UpdateMonster_view m dt wps ph)
    as [Hh|Hh Hs1|Hh Hs1 Hwp|wp Hh Hs1 Hwp Hn Hl|wp Hh Hs1 Hwp Hn Hl|wp Hh Hs1 Hwp Hn].
  - split; [eauto|discriminate].
  - split; [eauto|discriminate].
  - destruct (vec_at_in_range wps _ Hi) as [wp Hwp']. congruence.
  - split; [eauto|discriminate].
  - split.
    + destruct (move_monster_total
                  (set_waypoint_index m (wrap32 (Monster.waypoint_index m + 1)))
                  dt wps ph (Hnext Hl)) as [m' ->]. eauto.
    + intros m' ph' H. apply move_monster_alive in H. simpl in H.
      destruct H as (_ & _ & -> & _).
      pose proof (wrap32_le (Monster.waypoint_index m + 1)).
      specialize (Hnext Hl).
      split; [lia|]. split; [lia|]. split; [now right|].
      intros _. exists wp. split; [assumption|]. split; [assumption|lia].
  - split.
    + destruct (move_monster_total m dt wps ph Hi) as [m' ->]. eauto.
    + intros m' ph' H. apply move_monster_alive in H. simpl in H.
      destruct H as (_ & _ & -> & _).
      split; [lia|]. split; [lia|]. split; [now left|]. congruence.
Qed.

Lemma waypoint_index_stays_valid_witness :
  2 <= size two_waypoints /\
  0 <= Monster.waypoint_index fresh_monster < size two_waypoints /\
  exists m',
    UpdateMonster fresh_monster tick two_waypoints 100 = Ok (true, m', 100) /\
    Monster.waypoint_index m' = 1 /\
    0 <= Monster.waypoint_index m' < size two_waypoints.
Proof.
  assert (H2 : 2 <= size two_waypoints) by (unfold size; simpl; lia).
  assert (Hi : 0 <= Monster.waypoint_index fresh_monster < size two_waypoints)
    by (unfold size; simpl; lia).
  split; [exact H2|]. split; [exact Hi|].
  eexists. split; [vm_compute; reflexivity|]. split; [reflexivity|].
  eapply (waypoint_index_stays_valid fresh_monster tick two_waypoints 100 H2 Hi).
  vm_compute. reflexivity.
Defined.

(** C2, as amended: for every monster with positive health, when there are
    at least two waypoints, the monster targets the last one and is within
    the proximity threshold of it, and its damage does not exceed the
    player's health, [UpdateMonster] decreases the player's health by
    exactly that damage, once, and reports the monster dead (and unmoved).
    The player's health stays a 32-bit unsigned value, and no other path of
    [UpdateMonster] changes it. *)
Theorem arrival_damages_player (m : Monster) (dt : float)
    (wps : list Waypoint) (ph : Z) :
  (0 < Monster.health m -> 2 <= size wps -> arrived m wps ->
   uint32 ph -> 0 <= Monster.damage m <= ph ->
   UpdateMonster m dt wps ph = Ok (false, m, ph - Monster.damage m)) /\
  (forall alive m' ph',
     UpdateMonster m dt wps ph = Ok (alive, m', ph') ->
     (uint32 ph -> uint32 ph') /\
     (ph' <> ph ->
      alive = false /\ 0 < Monster.health m /\ 2 <= size wps /\ arrived m wps)).
Proof.
  split.
  - intros Hh Hs (wp & Hwp & Hn & Hl) Hph Hd.
    rewrite <- (wrap32_small (ph - Monster.damage m))
      by (unfold uint32 in *; lia).
    destruct (UpdateMonster_view m dt wps ph)
      as [Hh'|Hh' Hs1|Hh' Hs1 Hwp'|wp' Hh' Hs1 Hwp' Hn' Hl'
         |wp' Hh' Hs1 Hwp' Hn' Hl'|wp' Hh' Hs1 Hwp' Hn'];
      try lia; try congruence.
  - intros [] m' ph' H.
    + apply UpdateMonster_alive in H. subst ph'. split; [auto|congruence].
    + apply UpdateMonster_dead in H.
      destruct H as [_ [[_ ->]|[(_ & _ & ->)|(Hh & Hs & Ha & ->)]]];
        try (split; [auto|congruence]).
      split; [intros _; apply wrap32_range|]. intros _.
      repeat split; try assumption.
      destruct Ha as (wp & Hwp & _ & Hl).
      apply vec_at_Ok, lookup_lt_Some in Hwp. unfold size in *. lia.
Qed.

Lemma arrival_damages_player_witness :
  0 < Monster.health monster_at_goal /\ 2 <= size two_waypoints /\
  arrived monster_at_goal two_waypoints /\
  uint32 100 /\ 0 <= Monster.damage monster_at_goal <= 100 /\
  UpdateMonster monster_at_goal tick two_waypoints 100
  = Ok (false, monster_at_goal, 95).
Proof.
  assert (Hh : 0 < Monster.health monster_at_goal) by reflexivity.
  assert (Hs : 2 <= size two_waypoints) by (unfold size; simpl; lia).
  assert (Ha : arrived monster_at_goal two_waypoints).
  { exists (waypoint_at 300 150). repeat split; vm_compute; reflexivity. }
  assert (Hph : uint32 100) by (unfold uint32; lia).
  assert (Hd : 0 <= Monster.damage monster_at_goal <= 100) by (simpl; lia).
  split; [exact Hh|]. split; [exact Hs|]. split; [exact Ha|].
  split; [exact Hph|]. split; [exact Hd|].
  exact (proj1 (arrival_damages_player monster_at_goal tick two_waypoints 100)
           Hh Hs Ha Hph Hd).
Defined.

(** C2 as stated fails in three ways.  With the start waypoint alone, a
    spawned monster has positive health and stands on the last waypoint,
    and it is reported dead without any damage to the player.  With a second
    waypoint one pixel away, the spawned monster is within the threshold of
    the last waypoint while it still targets the first: it survives, and
    the player's health is untouched.  And when the player has less health
    left than the damage of a monster at the goal, the subtraction wraps
    around: the player's health does not decrease, it jumps up. *)
Lemma near_last_waypoint_without_damage :
  (0 < Monster.health fresh_monster /\
   list.last [start_waypoint] = Some start_waypoint /\
   near fresh_monster start_waypoint = true /\
   UpdateMonster fresh_monster tick [start_waypoint] 100
   = Ok (false, fresh_monster, 100) /\
   100 <> 100 - Monster.damage fresh_monster) /\
  (0 < Monster.health fresh_monster /\
   list.last close_waypoints = Some (waypoint_at 151 150) /\
   near fresh_monster (waypoint_at 151 150) = true /\
   exists m', UpdateMonster fresh_monster tick close_waypoints 100
              = Ok (true, m', 100)) /\
  (0 < Monster.health monster_at_goal /\
   list.last two_waypoints = Some (waypoint_at 300 150) /\
   near monster_at_goal (waypoint_at 300 150) = true /\
   UpdateMonster monster_at_goal tick two_waypoints 3
   = Ok (false, monster_at_goal, 2 ^ 32 - 2) /\
   2 ^ 32 - 2 <> 3 - Monster.damage monster_at_goal).
Proof.
  split; [|split].
  - repeat split; try reflexivity. discriminate.
  - split; [reflexivity|]. split; [reflexivity|]. split; [vm_compute; reflexivity|].
    eexists. vm_compute. reflexivity.
  - split; [reflexivity|]. split; [reflexivity|].
    split; [vm_compute; reflexivity|]. split; [vm_compute; reflexivity|].
    discriminate.
Qed.

(** ** The bullet system *)

Lemma retarget_in_range (b : Bullet) (ms : list Monster) :
  Bullet.target_index b < size ms -> retarget b ms = b.
Proof.
  intros H. unfold retarget.
  destruct (Z.leb_spec (size ms) (Bullet.target_index b)); [lia|reflexivity].
Qed.

Lemma retarget_past_end (b : Bullet) (ms : list Monster) :
  0 < size ms -> uint32 (Bullet.target_index b) ->
  size ms <= Bullet.target_index b ->
  retarget b ms = set_target_index b (size ms - 1).
Proof.
  unfold uint32. intros Hs Hb Hge. unfold retarget.
  destruct (Z.leb_spec (size ms) (Bullet.target_index b)); [|lia].
  destruct (Z.eqb_spec (size ms) 0); [lia|]. simpl.
  rewrite (wrap32_small (size ms)) by (unfold uint32; lia).
  rewrite wrap32_small by (unfold uint32; lia). reflexivity.
Qed.

(** After [retarget], the target index is inside the vector. *)
Lemma retarget_valid (b : Bullet) (ms : list Monster) :
  0 < size ms -> uint32 (Bullet.target_index b) ->
  0 <= Bullet.target_index (retarget b ms) < size ms.
Proof.
  intros Hs Hb.
  destruct (Z.lt_ge_cases (Bullet.target_index b) (size ms)) as [Hlt|Hge].
  - rewrite retarget_in_range by assumption. unfold uint32 in Hb. lia.
  - rewrite retarget_past_end by assumption. simpl. lia.
Qed.

(** C8: with no monster left, [UpdateBullet] reports the bullet dead at
    once; the bullet and the (empty) monster vector are as they were. *)
Theorem orphan_bullet_dies (b : Bullet) (dt : float) :
  UpdateBullet b dt [] = Ok (false, b, []).
Proof. reflexivity. Qed.



(** A hit subtracts the damage in 32-bit unsigned arithmetic: there is no
    clamp at zero, and no negative health either. *)
Lemma impact_subtracts (b b' : Bullet) (dt : float) (ms ms' : list Monster) :
  UpdateBullet b dt ms = Ok (false, b', ms') -> ms <> [] ->
  exists target,
    vec_at ms (Bullet.target_index b') = Ok target /\
    ms' = vec_set ms (Bullet.target_index b')
            (set_health target
               (wrap32 (Monster.health target - Bullet.damage b))).
Proof.
  unfold UpdateBullet. intros H Hne.
  destruct (Z.eqb_spec (size ms) 0) as [Hs|Hs].
  { destruct ms; [congruence|discriminate]. }
  destruct (vec_at ms (Bullet.target_index (retarget b ms))) as [target| |] eqn:Ht;
    simpl in H; try discriminate.
  destruct (hits _ target); [|discriminate].
  injection H as <- <-. exists target. simpl. split; [exact Ht|].
  unfold retarget. destruct (_ && _); reflexivity.
Qed.

(** A monster without health is reported dead, unmoved. *)
Lemma dead_monster_reported (m : Monster) (dt : float) (wps : list Waypoint)
    (ph : Z) :
  Monster.health m <= 0 -> UpdateMonster m dt wps ph = Ok (false, m, ph).
Proof.
  intros H. unfold UpdateMonster.
  destruct (Z.leb_spec (Monster.health m) 0); [reflexivity|lia].
Qed.

(** C1 fails on the code: the health is a [uint32_t], so damage beyond the
    remaining health wraps around instead of going negative, and the
    monster is not reported dead afterwards.  First on one call: a bullet of
    damage 50 hits a monster whose health is 0; the health becomes
    [2^32 - 50] and the next [UpdateMonster] reports the monster alive.
    Then on the frame loop: three towers built on one spot fire at a
    spawned monster in the same frame, the three bullets hit in that frame,
    and a frame later the monster is still there and no kill is counted. *)
Theorem overkill_wraps_health :
  (exists b' m' m'',
     UpdateBullet (fired_bullet ready_tower 0) tick [set_health fresh_monster 0]
     = Ok (false, b', [m']) /\
     Monster.health m' = 2 ^ 32 - 50 /\
     UpdateMonster m' tick two_waypoints 100 = Ok (true, m'', 100)) /\
  (exists g1 m1 g2 m2,
     frame tick ambush = Ok g1 /\
     monsters g1 = [m1] /\ bullets g1 = [] /\
     Monster.health m1 = 2 ^ 32 - 50 /\
     frame tick g1 = Ok g2 /\
     monsters g2 = [m2] /\ Monster.health m2 = 2 ^ 32 - 50 /\
     monsters_killed (session g2) = 0).
Proof.
  split.
  - eexists _, _, _. split; [vm_compute; reflexivity|].
    split; [reflexivity|]. vm_compute. reflexivity.
  - eexists _, _, _, _. split; [vm_compute; reflexivity|].
    split; [reflexivity|]. split; [reflexivity|]. split; [reflexivity|].
    split; [vm_compute; reflexivity|].
    split; [reflexivity|]. split; reflexivity.
Qed.

(** On the path that does not advance the waypoint index, the length that
    [Normalize] divides by is the distance just compared with the
    threshold, which is not zero. *)
Lemma move_divisor_not_zero (m : Monster) (wp : Waypoint) :
  near m wp = false ->
  F32.is_zero (Magnitude (monster_dir m wp).1 (monster_dir m wp).2) = false.
Proof.
  unfold near. change (Magnitude _ _)
    with (Distance (Monster.position m) (Waypoint.position wp)).
  destruct (Distance _ _) as [s| | |]; try reflexivity.
  destruct s; vm_compute; discriminate.
Qed.

(** C4 fails on the code: with a second waypoint on the pixel of the first
    one, a spawned monster is within the threshold of waypoint 0, which is
    not the last, so its index advances to waypoint 1 and the movement step
    is reached with the direction [(0, 0)]; [Normalize] divides zero by
    zero and the position of the monster becomes not-a-number. *)
Theorem stacked_waypoints_divide_by_zero :
  near fresh_monster start_waypoint = true /\
  size stacked_waypoints - 1 <> Monster.waypoint_index fresh_monster /\
  monster_dir (set_waypoint_index fresh_monster 1) (waypoint_at 150 150)
  = (S754_zero false, S754_zero false) /\
  Magnitude (S754_zero false) (S754_zero false) = S754_zero false /\
  Normalize (S754_zero false) (S754_zero false)
  = {| v2x := S754_nan; v2y := S754_nan |} /\
  UpdateMonster fresh_monster tick stacked_waypoints 100
  = Ok (true,
        set_monster_position (set_waypoint_index fresh_monster 1)
          {| x := S754_nan; y := S754_nan |},
        100).
Proof.
  split; [vm_compute; reflexivity|]. split; [discriminate|].
  split; [vm_compute; reflexivity|]. split; [vm_compute; reflexivity|].
  split; vm_compute; reflexivity.
Qed.

(** ** The tower system *)

Lemma wrap32_succ_nat (i : nat) :
  Z.of_nat i + 1 < 2 ^ 32 -> wrap32 (Z.of_nat i + 1) = Z.of_nat (S i).
Proof.
  intros H. rewrite wrap32_small by (unfold uint32; lia). lia.
Qed.

Lemma vec_at_nat {A : Type} (v : list A) (i : nat) :
  vec_at v (Z.of_nat i) = match v !! i with Some a => Ok a | None => OutOfBounds end.
Proof. unfold vec_at. now rewrite Nat2Z.id. Qed.

(** What the loop of [UpdateTower] returns, when it returns: the monsters
    below the index were examined and did not make the tower fire. *)
Lemma UpdateTower_loop_sound (armed : Tower) (ms : list Monster)
    (bs : list Bullet) (fuel : nat) :
  forall (i : Z) (t' : Tower) (bs' : list Bullet),
    0 <= i ->
    (ready armed = true ->
     forall j mj, (j < Z.to_nat i)%nat -> ms !! j = Some mj ->
                  in_range armed mj = false) ->
    UpdateTower_loop fuel armed ms bs i = Ok (t', bs') ->
    held_fire armed ms bs t' bs' \/ exists k, fired_at armed ms bs t' bs' k.
Proof.
  assert (Hexit : forall i, 0 <= i -> size ms <= i ->
            (ready armed = true ->
             forall j mj, (j < Z.to_nat i)%nat -> ms !! j = Some mj ->
                          in_range armed mj = false) ->
            held_fire armed ms bs armed bs).
  { intros i Hi Hge Hseen. split; [reflexivity|]. split; [reflexivity|].
    destruct (ready armed); [right|now left].
    intros j mj Hmj. apply (Hseen eq_refl j); [|assumption].
    apply lookup_lt_Some in Hmj. unfold size in Hge. lia. }
  induction fuel as [|fuel IH]; intros i t' bs' Hi Hseen; simpl;
    destruct (Z.ltb_spec i (size ms)) as [Hlt|Hge];
    try discriminate;
    try (intros [= <- <-]; left; now apply (Hexit i)).
  destruct (vec_at ms i) as [m| |] eqn:Hm; simpl; try discriminate.
  apply vec_at_Ok in Hm.
  assert (Hnext : in_range armed m = false \/ ready armed = false ->
            UpdateTower_loop fuel armed ms bs (wrap32 (i + 1)) = Ok (t', bs') ->
            held_fire armed ms bs t' bs' \/
            exists k, fired_at armed ms bs t' bs' k).
  { intros Hskip. apply IH; [apply wrap32_range|].
    intros Hready j mj Hj Hmj.
    destruct Hskip as [Hskip|Hskip]; [|congruence].
    pose proof (wrap32_le (i + 1)).
    destruct (decide (j = Z.to_nat i)) as [->|Hne]; [congruence|].
    apply (Hseen Hready j); [lia|assumption]. }
  destruct (in_range armed m) eqn:Hin; [|apply Hnext; now left].
  destruct (ready armed) eqn:Hready; [|apply Hnext; now right].
  intros [= <- <-]. right. exists (Z.to_nat i).
  split; [eauto|]. split; [exact (Hseen eq_refl)|]. split; [exact Hready|].
  rewrite Z2Nat.id by assumption. split; reflexivity.
Qed.

(** The loop of [UpdateTower] returns when the index can reach the end of
    the vector. *)
Lemma UpdateTower_loop_total (armed : Tower) (ms : list Monster)
    (bs : list Bullet) :
  size ms < 2 ^ 32 ->
  forall (fuel i : nat), (i <= length ms)%nat -> (length ms - i <= fuel)%nat ->
  exists r, UpdateTower_loop fuel armed ms bs (Z.of_nat i) = Ok r.
Proof.
  unfold size. intros Hsz fuel.
  induction fuel as [|fuel IH]; intros i Hi Hfuel; simpl;
    (destruct (Z.ltb_spec (Z.of_nat i) (size ms)) as [Hlt|Hge];
     unfold size in *; [|eauto]).
  { lia. }
  rewrite vec_at_nat.
  destruct (ms !! i) as [m|] eqn:Hm; [|apply lookup_ge_None in Hm; lia].
  simpl. rewrite wrap32_succ_nat by lia.
  destruct (in_range armed m); [destruct (ready armed); [eauto|]|];
    apply IH; lia.
Qed.

(** C6: when a call of [UpdateTower] returns, either no bullet was emitted,
    the timer holding its accumulated value (this is the case as soon as
    the accumulated timer is below the attack rate or no monster is in
    range), or exactly one bullet was emitted: then the accumulated timer
    had reached the attack rate, and the bullet, appended to the bullets
    that were there, has as its target index the index of the first monster
    in range in the order of the vector, the position of the tower, no
    velocity and damage 50; the timer is zero.  On fewer than [2^32]
    monsters, which the 32-bit index of the loop can walk, the call does
    return. *)
Theorem tower_fires_at_first_in_range (tower : Tower) (dt : float)
    (ms : list Monster) (bs : list Bullet) :
  let armed := set_timer tower (F32.add (Tower.timer tower) dt) in
  (forall t' bs',
     UpdateTower tower dt ms bs = Ok (t', bs') ->
     (bs' = bs /\ t' = armed /\
      (F32.geb (Tower.timer armed) (Tower.attackRate tower) = false \/
       forall j mj, ms !! j = Some mj -> in_range tower mj = false))
     \/
     (exists i m b,
        ms !! i = Some m /\ in_range tower m = true /\
        (forall j mj, (j < i)%nat -> ms !! j = Some mj ->
                      in_range tower mj = false) /\
        F32.geb (Tower.timer armed) (Tower.attackRate tower) = true /\
        bs' = bs ++ [b] /\
        Bullet.target_index b = Z.of_nat i /\
        Bullet.position b = Tower.position tower /\
        Bullet.velocity b = {| vx := F32.zero; vy := F32.zero |} /\
        Bullet.damage b = 50 /\
        t' = set_timer tower F32.zero /\ Tower.timer t' = F32.zero)) /\
  (size ms < 2 ^ 32 ->
   exists t' bs', UpdateTower tower dt ms bs = Ok (t', bs')).
Proof.
  intros armed. unfold UpdateTower. fold armed. split.
  - intros t' bs' Hrun.
    apply UpdateTower_loop_sound in Hrun; [|lia|intros _ j mj Hj; simpl in Hj; lia].
    destruct Hrun as [Hheld|(i & (m & Hm & Hin) & Hfirst & Hready & -> & ->)].
    + left. exact Hheld.
    + right. exists i, m, (fired_bullet armed (Z.of_nat i)).
      split; [exact Hm|]. split; [exact Hin|].
      split; [exact Hfirst|]. split; [exact Hready|].
      split; [reflexivity|]. split; [reflexivity|].
      split; [simpl; now destruct (Tower.position tower)|].
      split; [reflexivity|]. split; [reflexivity|].
      split; reflexivity.
  - intros Hsz.
    destruct (UpdateTower_loop_total armed ms bs Hsz (length ms) 0)
      as [[t' bs'] Hrun]; [lia|lia|]. eauto.
Qed.

Lemma tower_fires_at_first_in_range_witness :
  size [monster_in_range] < 2 ^ 32 /\
  exists t' b,
    UpdateTower loaded_tower F32.zero [monster_in_range] [] = Ok (t', [b]) /\
    Bullet.target_index b = 0 /\
    Bullet.position b = Tower.position loaded_tower /\
    Bullet.damage b = 50 /\
    Tower.timer t' = F32.zero.
Proof.
  assert (Hsz : size [monster_in_range] < 2 ^ 32) by reflexivity.
  split; [exact Hsz|].
  destruct (tower_fires_at_first_in_range loaded_tower F32.zero
              [monster_in_range] [])
    as [Hsound Htotal].
  destruct (Htotal Hsz) as (t' & bs' & Hrun).
  destruct (Hsound t' bs' Hrun)
    as [(_ & _ & [Hearly|Hfar])
       |(i & m & b & Hm & _ & _ & _ & Hbs & Hi & Hpos & _ & Hdmg & _ & Ht)].
  - vm_compute in Hearly. discriminate.
  - specialize (Hfar 0%nat monster_in_range eq_refl).
    vm_compute in Hfar. discriminate.
  - destruct i as [|i]; [|destruct i; discriminate].
    exists t', b. rewrite Hrun, Hbs.
    split; [reflexivity|]. split; [exact Hi|]. split; [exact Hpos|].
    split; [exact Hdmg|exact Ht].
Defined.

(** ** The scan with removal *)

Lemma swap_remove_length {A : Type} (i : nat) (v : list A) :
  length (swap_remove i v) = (length v - 1)%nat.
Proof.
  unfold swap_remove, pop_back. destruct (list.last v) as [a|] eqn:Hl.
  - rewrite length_take, length_insert. lia.
  - apply last_None in Hl. now subst v.
Qed.

Lemma swap_remove_lookup {A : Type} (i j : nat) (v : list A) :
  (i < length v)%nat -> (j < length v - 1)%nat ->
  swap_remove i v !! j = if decide (j = i) then list.last v else v !! j.
Proof.
  intros Hi Hj. unfold swap_remove, pop_back.
  destruct (list.last v) as [a|] eqn:Hl.
  - rewrite length_insert, lookup_take_lt by lia. destruct (decide (j = i)) as [->|Hne].
    + now rewrite list_lookup_insert_eq by lia.
    + now rewrite list_lookup_insert_ne by congruence.
  - apply last_None in Hl. subst v. simpl in Hi. lia.
Qed.

Lemma swap_remove_insert {A : Type} (i : nat) (x : A) (v : list A) :
  (i < length v)%nat -> swap_remove i (<[i := x]> v) = swap_remove i v.
Proof.
  intros Hi. unfold swap_remove, pop_back.
  rewrite !last_lookup, length_insert.
  destruct (decide (i = pred (length v))) as [Hlast|Hnot].
  - rewrite Hlast at 1. rewrite list_lookup_insert_eq by lia.
    destruct (v !! pred (length v)) as [a|] eqn:Ha;
      [|apply lookup_ge_None in Ha; lia].
    rewrite list_insert_insert_eq, !length_insert.
    rewrite !take_insert_ge by lia. reflexivity.
  - rewrite list_lookup_insert_ne by assumption.
    destruct (v !! pred (length v)) as [a|] eqn:Ha;
      [|apply lookup_ge_None in Ha; lia].
    now rewrite list_insert_insert_eq, !length_insert.
Qed.

Section ScanFacts.

Context {E G : Type}.
Variable update : E -> G -> outcome (bool * E * G).
Variable assign : E -> E -> E.
Variable on_remove : G -> G.

(** The field-by-field copy makes the destination equal to the source. *)
Hypothesis assign_copies : forall dst src, assign dst src = src.

(** A turn on an entity that is reported alive. *)
Lemma scan_turn_alive (s : scan_state E G) (e e' : E) (env' : G) :
  vec_at (sc_items s) (sc_i s) = Ok e ->
  update e (sc_env s) = Ok (true, e', env') ->
  scan_body update assign on_remove s
  = Ok {| sc_i := wrap32 (sc_i s + 1);
          sc_items := vec_set (sc_items s) (sc_i s) e';
          sc_env := env' |}.
Proof. intros He Hu. unfold scan_body. rewrite He. simpl. now rewrite Hu. Qed.

(** A turn on an entity that is reported dead. *)
Lemma scan_turn_dead (s : scan_state E G) (e e' : E) (env' : G) :
  vec_at (sc_items s) (sc_i s) = Ok e ->
  update e (sc_env s) = Ok (false, e', env') ->
  scan_body update assign on_remove s
  = Ok {| sc_i := wrap32 (wrap32 (sc_i s - 1) + 1);
          sc_items := swap_remove (Z.to_nat (sc_i s)) (sc_items s);
          sc_env := on_remove env' |}.
Proof.
  intros He Hu. unfold scan_body. rewrite He. simpl. rewrite Hu. simpl.
  apply vec_at_Ok in He. pose proof (lookup_lt_Some _ _ _ He) as Hlt.
  unfold vec_at, vec_set, size.
  rewrite list_lookup_insert_eq by assumption. simpl.
  rewrite length_insert.
  replace (Z.to_nat (Z.of_nat (length (sc_items s)) - 1))
    with (pred (length (<[Z.to_nat (sc_i s) := e']> (sc_items s))))
    by (rewrite length_insert; lia).
  rewrite <- last_lookup.
  rewrite <- (swap_remove_insert _ e' (sc_items s) Hlt). unfold swap_remove.
  destruct (list.last _) as [src|] eqn:Hsrc; simpl.
  - now rewrite assign_copies.
  - apply last_None in Hsrc.
    apply (f_equal length) in Hsrc. rewrite length_insert in Hsrc.
    simpl in Hsrc. lia.
Qed.

(** What a turn that returns has done. *)
Lemma scan_turn_inv (s s' : scan_state E G) :
  scan_body update assign on_remove s = Ok s' ->
  exists e alive e' env',
    vec_at (sc_items s) (sc_i s) = Ok e /\
    update e (sc_env s) = Ok (alive, e', env') /\
    s' = if alive
         then {| sc_i := wrap32 (sc_i s + 1);
                 sc_items := vec_set (sc_items s) (sc_i s) e';
                 sc_env := env' |}
         else {| sc_i := wrap32 (wrap32 (sc_i s - 1) + 1);
                 sc_items := swap_remove (Z.to_nat (sc_i s)) (sc_items s);
                 sc_env := on_remove env' |}.
Proof.
  intros H.
  destruct (vec_at (sc_items s) (sc_i s)) as [e| |] eqn:He;
    [|unfold scan_body in H; rewrite He in H; discriminate..].
  destruct (update e (sc_env s)) as [[[alive e'] env']| |] eqn:Hu;
    [|unfold scan_body in H; rewrite He in H; simpl in H; rewrite Hu in H;
      discriminate..].
  exists e, alive, e', env'. split; [reflexivity|]. split; [exact Hu|].
  destruct alive.
  - rewrite (scan_turn_alive s e e' env' He Hu) in H. congruence.
  - rewrite (scan_turn_dead s e e' env' He Hu) in H. congruence.
Qed.

Lemma scan_loop_step (fuel : nat) (s : scan_state E G) :
  sc_i s < size (sc_items s) ->
  scan_loop update assign on_remove (S fuel) s
  = scan_body update assign on_remove s ≫= scan_loop update assign on_remove fuel.
Proof.
  intros H. simpl. destruct (Z.ltb_spec (sc_i s) (size (sc_items s))); [reflexivity|lia].
Qed.

Lemma scan_loop_done (fuel : nat) (s : scan_state E G) :
  size (sc_items s) <= sc_i s ->
  scan_loop update assign on_remove fuel s = Ok s.
Proof.
  intros H. destruct fuel; simpl;
    destruct (Z.ltb_spec (sc_i s) (size (sc_items s))); try reflexivity; lia.
Qed.

(** A property that every turn keeps holds when the loop returns. *)
Lemma scan_loop_inv (I : scan_state E G -> Prop) :
  (forall s s', I s -> sc_i s < size (sc_items s) ->
                scan_body update assign on_remove s = Ok s' -> I s') ->
  forall fuel s s',
    I s -> scan_loop update assign on_remove fuel s = Ok s' ->
    I s' /\ size (sc_items s') <= sc_i s'.
Proof.
  intros Hstep fuel. induction fuel as [|fuel IH]; intros s s' Hs H; simpl in H;
    destruct (Z.ltb_spec (sc_i s) (size (sc_items s))) as [Hlt|Hge];
    try discriminate; try (injection H as <-; now split).
  destruct (scan_body update assign on_remove s) as [s1| |] eqn:Hb;
    try discriminate.
  simpl in H. apply (IH s1 s'); [|exact H]. now apply (Hstep s).
Qed.

(** When every entity from the index on is reported alive, and the updates
    leave the environment alone, the loop ends with each entity replaced by
    its own update, at its own index. *)
Lemma scan_loop_all_alive (env : G) (es es' : list E) :
  Forall2 (fun e e' => update e env = Ok (true, e', env)) es es' ->
  forall (pre : list E) (fuel : nat),
    size (pre ++ es) < 2 ^ 32 -> (length es <= fuel)%nat ->
    scan_loop update assign on_remove fuel
      {| sc_i := size pre; sc_items := pre ++ es; sc_env := env |}
    = Ok {| sc_i := size (pre ++ es'); sc_items := pre ++ es'; sc_env := env |}.
Proof.
  induction 1 as [|e e' es es' He _ IH]; intros pre fuel Hsz Hfuel.
  - rewrite !app_nil_r. apply scan_loop_done. simpl. lia.
  - destruct fuel as [|fuel]; [simpl in Hfuel; lia|].
    unfold size in Hsz. rewrite length_app in Hsz. simpl in Hsz, Hfuel.
    rewrite scan_loop_step
      by (simpl; unfold size; rewrite length_app; simpl; lia).
    assert (Hat : vec_at (pre ++ e :: es) (size pre) = Ok e).
    { unfold size. rewrite vec_at_nat.
      now rewrite lookup_app_r, Nat.sub_diag by lia. }
    rewrite (scan_turn_alive
               {| sc_i := size pre; sc_items := pre ++ e :: es; sc_env := env |}
               e e' env Hat He).
    simpl. unfold vec_set, size. rewrite Nat2Z.id.
    rewrite insert_app_r_alt, Nat.sub_diag by lia. simpl.
    rewrite wrap32_small by (unfold uint32; lia).
    replace (Z.of_nat (length pre) + 1) with (size (pre ++ [e']))
      by (unfold size; rewrite length_app; simpl; lia).
    rewrite (cons_middle e' pre es), (cons_middle e' pre es'), !app_assoc.
    apply IH; [|lia].
    unfold size. rewrite !length_app. simpl. lia.
Qed.

(** The loop returns when the updates do: [Pe] holds of the entities that
    are still to be examined and makes their update return, [Pg] is what the
    environment keeps. *)
Lemma scan_loop_total (Pe : E -> Prop) (Pg : G -> Prop) :
  (forall e g, Pe e -> Pg g ->
     exists alive e' g', update e g = Ok (alive, e', g') /\ Pg g') ->
  (forall g, Pg g -> Pg (on_remove g)) ->
  forall (fuel : nat) (s : scan_state E G),
    Pg (sc_env s) -> 0 <= sc_i s -> size (sc_items s) < 2 ^ 32 ->
    (forall j e, (Z.to_nat (sc_i s) <= j)%nat -> sc_items s !! j = Some e -> Pe e) ->
    (length (sc_items s) - Z.to_nat (sc_i s) <= fuel)%nat ->
    exists s', scan_loop update assign on_remove fuel s = Ok s' /\ Pg (sc_env s').
Proof.
  intros Hupd Hrem fuel.
  induction fuel as [|fuel IH]; intros s Henv Hi Hsz Hrest Hfuel;
    (destruct (Z.lt_ge_cases (sc_i s) (size (sc_items s))) as [Hlt|Hge];
     [|rewrite scan_loop_done by lia; eauto]).
  { unfold size in Hlt. lia. }
  rewrite scan_loop_step by assumption.
  destruct (vec_at_in_range (sc_items s) (sc_i s)) as [e He]; [lia|].
  pose proof (proj1 (vec_at_Ok _ _ _) He) as Hlook.
  destruct (Hupd e (sc_env s)) as (alive & e' & env' & Hu & Henv');
    [now apply (Hrest (Z.to_nat (sc_i s)))|assumption|].
  unfold size in *. destruct alive.
  - rewrite (scan_turn_alive s e e' env' He Hu).
    simpl. rewrite wrap32_small by (unfold uint32; lia).
    apply IH; simpl; unfold vec_set; rewrite ?length_insert; try assumption; try lia.
    intros j x Hj Hx. rewrite list_lookup_insert_ne in Hx by lia.
    apply (Hrest j); [lia|assumption].
  - rewrite (scan_turn_dead s e e' env' He Hu).
    simpl. rewrite wrap32_pred_succ by (unfold uint32; lia).
    apply IH; simpl; rewrite ?swap_remove_length; auto; try lia.
    intros j x Hj Hx.
    assert (Hjlt : (j < length (sc_items s) - 1)%nat).
    { apply lookup_lt_Some in Hx. now rewrite swap_remove_length in Hx. }
    rewrite swap_remove_lookup in Hx by lia.
    destruct (decide (j = Z.to_nat (sc_i s))) as [->|Hne].
    + rewrite last_lookup in Hx.
      apply (Hrest (pred (length (sc_items s)))); [lia|assumption].
    + apply (Hrest j); [lia|assumption].
Qed.

End ScanFacts.

(** ** The loops of [main] *)

Lemma assign_monster_copies (dst src : Monster) : assign_monster dst src = src.
Proof. destruct src as [h [px py] [vx vy] i d]. reflexivity. Qed.

Lemma assign_bullet_copies (dst src : Bullet) : assign_bullet dst src = src.
Proof. destruct src as [[px py] [vx vy] d i]. reflexivity. Qed.

Lemma UpdateMonster_total (m : Monster) (dt : float) (wps : list Waypoint)
    (ph : Z) :
  on_path wps m -> exists r, UpdateMonster m dt wps ph = Ok r.
Proof.
  unfold on_path. intros Hi.
  destruct (UpdateMonster_view m dt wps ph)
    as [Hh|Hh Hs1|Hh Hs1 Hwp|wp Hh Hs1 Hwp Hn Hl|wp Hh Hs1 Hwp Hn Hl|wp Hh Hs1 Hwp Hn];
    eauto.
  - destruct (vec_at_in_range wps _ Hi) as [wp Hwp']. congruence.
  - destruct (move_monster_total
                (set_waypoint_index m (wrap32 (Monster.waypoint_index m + 1)))
                dt wps ph) as [m' ->]; [|eauto].
    simpl. pose proof (wrap32_range (Monster.waypoint_index m + 1)) as Hr.
    pose proof (wrap32_le (Monster.waypoint_index m + 1)). unfold uint32 in Hr.
    lia.
  - destruct (move_monster_total m dt wps ph Hi) as [m' ->]. eauto.
Qed.

Lemma monster_update_total (dt : float) (wps : list Waypoint) (m : Monster)
    (t : tally) :
  on_path wps m ->
  exists alive m' t', monster_update dt wps m t = Ok (alive, m', t').
Proof.
  intros Hm. unfold monster_update.
  destruct (UpdateMonster_total m dt wps (player_health t) Hm)
    as [[[alive m'] ph'] ->].
  simpl. eauto.
Qed.

Lemma monster_update_inv (dt : float) (wps : list Waypoint) (m m' : Monster)
    (t t' : tally) (alive : bool) :
  monster_update dt wps m t = Ok (alive, m', t') ->
  monsters_killed t' = monsters_killed t /\
  UpdateMonster m dt wps (player_health t) = Ok (alive, m', player_health t').
Proof.
  unfold monster_update.
  destruct (UpdateMonster m dt wps (player_health t)) as [[[a m1] ph1]| |];
    simpl; try discriminate.
  intros [= <- <- <-]. simpl. auto.
Qed.

Lemma UpdateBullet_total (b : Bullet) (dt : float) (ms : list Monster) :
  uint32 (Bullet.target_index b) ->
  exists alive b' ms',
    UpdateBullet b dt ms = Ok (alive, b', ms') /\ size ms' = size ms.
Proof.
  intros Hb. unfold UpdateBullet.
  destruct (Z.eqb_spec (size ms) 0) as [Hs|Hs]; [eauto 10|].
  assert (Hpos : 0 < size ms) by (unfold size in *; lia).
  destruct (vec_at_in_range ms _ (retarget_valid b ms Hpos Hb)) as [target ->].
  simpl. destruct (hits _ target); eexists _, _, _; (split; [reflexivity|]).
  - apply size_vec_set.
  - reflexivity.
Qed.

(** [UpdateTower] returns, with the bullets it was given and at most one
    more, aimed at a monster of the vector. *)
Lemma UpdateTower_total (tower : Tower) (dt : float) (ms : list Monster)
    (bs : list Bullet) :
  size ms < 2 ^ 32 ->
  exists t' bs',
    UpdateTower tower dt ms bs = Ok (t', bs') /\
    (bs' = bs \/
     exists i b, (i < length ms)%nat /\ Bullet.target_index b = Z.of_nat i /\
                 bs' = bs ++ [b]).
Proof.
  intros Hsz. unfold UpdateTower.
  destruct (UpdateTower_loop_total
              (set_timer tower (F32.add (Tower.timer tower) dt)) ms bs Hsz
              (length ms) 0) as [[t' bs'] Hrun]; [lia|lia|].
  exists t', bs'. split; [exact Hrun|].
  apply UpdateTower_loop_sound in Hrun; [|lia|intros _ j mj Hj; simpl in Hj; lia].
  destruct Hrun as [(-> & _)|(i & (m & Hm & _) & _ & _ & -> & _)].
  - now left.
  - right. eexists i, _. split; [now apply lookup_lt_Some in Hm|].
    split; [|reflexivity]. reflexivity.
Qed.

(** The tower loop returns; the bullets it adds are aimed inside the
    monster vector, one per tower at most. *)
Lemma towers_loop_total (dt : float) (ms : list Monster) :
  size ms < 2 ^ 32 ->
  forall (fuel i : nat) (ts : list Tower) (bs : list Bullet),
    size ts < 2 ^ 32 -> (i <= length ts)%nat -> (length ts - i <= fuel)%nat ->
    Forall (fun b => uint32 (Bullet.target_index b)) bs ->
    exists ts' bs',
      towers_loop fuel dt ms (Z.of_nat i) ts bs = Ok (ts', bs') /\
      Forall (fun b => uint32 (Bullet.target_index b)) bs' /\
      (length bs' <= length bs + (length ts - i))%nat.
Proof.
  intros Hms fuel.
  induction fuel as [|fuel IH]; intros i ts bs Hts Hi Hfuel Hbs; simpl;
    unfold size in *;
    (destruct (Z.ltb_spec (Z.of_nat i) (Z.of_nat (length ts))) as [Hlt|Hge];
     [|exists ts, bs; split; [reflexivity|split; [assumption|lia]]]).
  { lia. }
  rewrite vec_at_nat.
  destruct (ts !! i) as [t|] eqn:Ht; [|apply lookup_ge_None in Ht; lia].
  simpl.
  destruct (UpdateTower_total t dt ms bs Hms) as (t' & bs1 & -> & Hbs1).
  simpl. rewrite wrap32_succ_nat by lia.
  destruct (IH (S i) (vec_set ts (Z.of_nat i) t') bs1)
    as (ts' & bs' & Hrun & Hok & Hlen).
  - unfold vec_set. rewrite length_insert. lia.
  - unfold vec_set. rewrite length_insert. lia.
  - unfold vec_set. rewrite length_insert. lia.
  - destruct Hbs1 as [->|(k & b & Hk & Hb & ->)]; [assumption|].
    apply Forall_app. split; [assumption|]. constructor; [|constructor].
    rewrite Hb. unfold uint32. lia.
  - exists ts', bs'. split; [exact Hrun|]. split; [exact Hok|].
    unfold vec_set in Hlen. rewrite length_insert in Hlen.
    destruct Hbs1 as [->|(k & b & Hk & Hb & ->)];
      [|rewrite length_app in Hlen; simpl in Hlen]; lia.
Qed.

Lemma UpdateBullet_size (b b' : Bullet) (dt : float) (ms ms' : list Monster)
    (alive : bool) :
  UpdateBullet b dt ms = Ok (alive, b', ms') -> size ms' = size ms.
Proof.
  unfold UpdateBullet. destruct (size ms =? 0); [now intros [= _ _ <-]|].
  destruct (vec_at ms _) as [target| |]; simpl; try discriminate.
  destruct (hits _ target); intros [= _ _ <-]; [apply size_vec_set|reflexivity].
Qed.

Lemma monsters_pass_total (dt : float) (wps : list Waypoint)
    (ms : list Monster) (t : tally) :
  size ms < 2 ^ 32 -> Forall (on_path wps) ms ->
  exists ms' t', monsters_pass dt wps ms t = Ok (ms', t').
Proof.
  intros Hsz Hms. unfold monsters_pass, scan.
  destruct (scan_loop_total (monster_update dt wps) assign_monster count_kill
              assign_monster_copies (on_path wps) (fun _ => True))
    with (fuel := length ms)
         (s := {| sc_i := 0; sc_items := ms; sc_env := t |})
    as (s' & -> & _); simpl; auto; try lia.
  - intros m g Hm _.
    destruct (monster_update_total dt wps m g Hm) as (alive & m' & t' & ->).
    eauto 10.
  - intros j m _ Hm. rewrite Forall_lookup in Hms. now apply (Hms j).
  - eauto.
Qed.

(** Every turn of the monster loop keeps the kill counter in step with the
    number of monsters that have left the vector. *)
Lemma monsters_pass_count (dt : float) (wps : list Waypoint)
    (ms ms' : list Monster) (t t' : tally) :
  uint32 (monsters_killed t) ->
  monsters_pass dt wps ms t = Ok (ms', t') ->
  size ms' <= size ms /\
  monsters_killed t' = wrap32 (monsters_killed t + (size ms - size ms')).
Proof.
  intros Hk. unfold monsters_pass, scan.
  destruct (scan_loop _ _ _ _ _) as [s'| |] eqn:Hrun; simpl; try discriminate.
  intros [= <- <-].
  apply (scan_loop_inv (monster_update dt wps) assign_monster count_kill
           (fun s => size (sc_items s) <= size ms /\
                     monsters_killed (sc_env s)
                     = wrap32 (monsters_killed t + (size ms - size (sc_items s)))))
    in Hrun.
  - tauto.
  - clear. intros s s1 [Hle Hcount] Hlt Hturn.
    apply (scan_turn_inv _ _ _ assign_monster_copies) in Hturn.
    destruct Hturn as (m & alive & m' & t1 & Hm & Hu & ->).
    apply monster_update_inv in Hu. destruct Hu as [Hkilled _].
    destruct alive; simpl.
    + rewrite size_vec_set, Hkilled. auto.
    + apply vec_at_Ok, lookup_lt_Some in Hm.
      unfold size in *. rewrite swap_remove_length, Hkilled, Hcount.
      split; [lia|]. rewrite wrap32_idem_add. f_equal. lia.
  - simpl. split; [lia|]. rewrite Z.sub_diag, Z.add_0_r.
    symmetry. now apply wrap32_small.
Qed.

Lemma monsters_pass_size (dt : float) (wps : list Waypoint)
    (ms ms' : list Monster) (t t' : tally) :
  monsters_pass dt wps ms t = Ok (ms', t') -> size ms' <= size ms.
Proof.
  unfold monsters_pass, scan.
  destruct (scan_loop _ _ _ _ _) as [s'| |] eqn:Hrun; simpl; try discriminate.
  intros [= <- <-].
  apply (scan_loop_inv (monster_update dt wps) assign_monster count_kill
           (fun s => size (sc_items s) <= size ms)) in Hrun.
  - tauto.
  - clear. intros s s1 Hle Hlt Hturn.
    apply (scan_turn_inv _ _ _ assign_monster_copies) in Hturn.
    destruct Hturn as (m & alive & m' & t1 & Hm & Hu & ->).
    destruct alive; simpl.
    + now rewrite size_vec_set.
    + unfold size in *. rewrite swap_remove_length. lia.
  - simpl. lia.
Qed.

Lemma bullets_pass_total (dt : float) (bs : list Bullet) (ms : list Monster) :
  size bs < 2 ^ 32 -> Forall (fun b => uint32 (Bullet.target_index b)) bs ->
  exists bs' ms', bullets_pass dt bs ms = Ok (bs', ms') /\ size ms' = size ms.
Proof.
  intros Hsz Hbs. unfold bullets_pass, scan.
  destruct (scan_loop_total (fun b ms => UpdateBullet b dt ms) assign_bullet
              (fun ms => ms) assign_bullet_copies
              (fun b => uint32 (Bullet.target_index b))
              (fun ms' => size ms' = size ms))
    with (fuel := length bs)
         (s := {| sc_i := 0; sc_items := bs; sc_env := ms |})
    as (s' & -> & Hsize); simpl; auto; try lia.
  - intros b g Hb Hg.
    destruct (UpdateBullet_total b dt g Hb) as (alive & b' & g' & -> & Hg').
    exists alive, b', g'. split; [reflexivity|congruence].
  - intros j b _ Hb. rewrite Forall_lookup in Hbs. now apply (Hbs j).
  - eauto.
Qed.

Lemma bullets_pass_size (dt : float) (bs bs' : list Bullet)
    (ms ms' : list Monster) :
  bullets_pass dt bs ms = Ok (bs', ms') -> size ms' = size ms.
Proof.
  unfold bullets_pass, scan.
  destruct (scan_loop _ _ _ _ _) as [s'| |] eqn:Hrun; simpl; try discriminate.
  intros [= <- <-].
  apply (scan_loop_inv (fun b ms => UpdateBullet b dt ms) assign_bullet
           (fun ms => ms) (fun s => size (sc_env s) = size ms)) in Hrun.
  - tauto.
  - clear. intros s s1 Hsize Hlt Hturn.
    apply (scan_turn_inv _ _ _ assign_bullet_copies) in Hturn.
    destruct Hturn as (b & alive & b' & ms1 & Hb & Hu & ->).
    apply UpdateBullet_size in Hu. destruct alive; simpl; congruence.
  - reflexivity.
Qed.

Lemma towers_pass_total (dt : float) (ms : list Monster) (ts : list Tower)
    (bs : list Bullet) :
  size ms < 2 ^ 32 -> size ts < 2 ^ 32 ->
  Forall (fun b => uint32 (Bullet.target_index b)) bs ->
  exists ts' bs',
    towers_pass dt ms ts bs = Ok (ts', bs') /\
    Forall (fun b => uint32 (Bullet.target_index b)) bs' /\
    size bs' <= size bs + size ts.
Proof.
  intros Hms Hts Hbs. unfold towers_pass.
  destruct (towers_loop_total dt ms Hms (length ts) 0 ts bs)
    as (ts' & bs' & Hrun & Hok & Hlen); [assumption|lia|lia|assumption|].
  exists ts', bs'. split; [exact Hrun|]. split; [exact Hok|].
  unfold size. lia.
Qed.

(** A frame of a playable game returns. *)
Lemma frame_total (dt : float) (g : Game) :
  playable g -> exists g', frame dt g = Ok g'.
Proof.
  intros (Hms & Hsz & Hpath & Hbs & Hk). unfold frame.
  destruct (monsters_pass_total dt (waypoints g) (monsters g) (session g) Hms Hpath)
    as (ms1 & t1 & Hpass).
  pose proof (monsters_pass_count _ _ _ _ _ _ Hk Hpass) as [Hle _].
  rewrite Hpass. cbn -[towers_pass bullets_pass].
  destruct (towers_pass_total dt ms1 (towers g) (bullets g))
    as (ts1 & bs1 & -> & Hbs1 & Hlen);
    [lia|pose proof (Nat2Z.is_nonneg (length (bullets g))); unfold size in *; lia
    |assumption|].
  cbn -[bullets_pass].
  destruct (bullets_pass_total dt bs1 ms1) as (bs2 & ms2 & -> & _);
    [lia|assumption|].
  cbn. eauto.
Qed.

Lemma frame_inv (dt : float) (g g' : Game) :
  frame dt g = Ok g' ->
  exists ms1 t1 ts1 bs1 bs2 ms2,
    monsters_pass dt (waypoints g) (monsters g) (session g) = Ok (ms1, t1) /\
    towers_pass dt ms1 (towers g) (bullets g) = Ok (ts1, bs1) /\
    bullets_pass dt bs1 ms1 = Ok (bs2, ms2) /\
    g' = {| monsters := ms2; waypoints := waypoints g; towers := ts1;
            bullets := bs2; session := t1 |}.
Proof.
  unfold frame.
  destruct (monsters_pass _ _ _ _) as [[ms1 t1]| |] eqn:Hm;
    cbn -[towers_pass bullets_pass]; try discriminate.
  destruct (towers_pass _ _ _ _) as [[ts1 bs1]| |] eqn:Ht; cbn -[bullets_pass];
    try discriminate.
  destruct (bullets_pass _ _ _) as [[bs2 ms2]| |] eqn:Hb; cbn; try discriminate.
  intros [= <-]. exists ms1, t1, ts1, bs1, bs2, ms2. auto.
Qed.

Lemma UpdateBullet_alive (b b' : Bullet) (dt : float) (ms ms' : list Monster) :
  UpdateBullet b dt ms = Ok (true, b', ms') -> ms' = ms.
Proof.
  unfold UpdateBullet. destruct (size ms =? 0); [discriminate|].
  destruct (vec_at ms _) as [target| |]; simpl; try discriminate.
  destruct (hits _ target); [discriminate|]. now intros [= _ <-].
Qed.

Lemma Forall_exists_Forall2 {A B : Type} (R : A -> B -> Prop) (l : list A) :
  Forall (fun a => exists b, R a b) l -> exists k, Forall2 R l k.
Proof.
  induction 1 as [|a l [b Hab] _ [k Hk]].
  - exists []. constructor.
  - exists (b :: k). now constructor.
Qed.

(** C10, as amended: a pass over monsters, or over bullets, none of which
    is reported dead removes and relocates nothing: the vector that comes out
    has the length and the order of the vector that went in, and holds at
    each index the entity that was there, as its own update left it (so it
    is the vector that went in whenever the updates change no entity).  A
    turn of either loop on an entity that is reported dead overwrites its
    slot with the last record, shortens the vector by one, and leaves the
    index where it is, so that the record that moved in is examined
    next. *)
Theorem compaction_scan :
  (forall dt wps (ms : list Monster) (t : tally),
     size ms < 2 ^ 32 ->
     Forall (fun m => exists m' ph',
               UpdateMonster m dt wps (player_health t) = Ok (true, m', ph')) ms ->
     exists ms',
       monsters_pass dt wps ms t = Ok (ms', t) /\
       Forall2 (fun m m' => UpdateMonster m dt wps (player_health t)
                            = Ok (true, m', player_health t)) ms ms') /\
  (forall dt (bs : list Bullet) (ms : list Monster),
     size bs < 2 ^ 32 ->
     Forall (fun b => exists b' ms',
               UpdateBullet b dt ms = Ok (true, b', ms')) bs ->
     exists bs',
       bullets_pass dt bs ms = Ok (bs', ms) /\
       Forall2 (fun b b' => UpdateBullet b dt ms = Ok (true, b', ms)) bs bs') /\
  (forall dt wps (s : scan_state Monster tally) m m' ph',
     uint32 (sc_i s) ->
     vec_at (sc_items s) (sc_i s) = Ok m ->
     UpdateMonster m dt wps (player_health (sc_env s)) = Ok (false, m', ph') ->
     exists s',
       monsters_body dt wps s = Ok s' /\
       sc_i s' = sc_i s /\
       sc_items s' = swap_remove (Z.to_nat (sc_i s)) (sc_items s) /\
       size (sc_items s') = size (sc_items s) - 1) /\
  (forall dt (s : scan_state Bullet (list Monster)) b b' ms',
     uint32 (sc_i s) ->
     vec_at (sc_items s) (sc_i s) = Ok b ->
     UpdateBullet b dt (sc_env s) = Ok (false, b', ms') ->
     exists s',
       bullets_body dt s = Ok s' /\
       sc_i s' = sc_i s /\
       sc_items s' = swap_remove (Z.to_nat (sc_i s)) (sc_items s) /\
       size (sc_items s') = size (sc_items s) - 1).
Proof.
  split; [|split; [|split]].
  - intros dt wps ms [ph k] Hsz Hall. simpl in Hall.
    assert (Hall' : Forall (fun m => exists m',
              UpdateMonster m dt wps ph = Ok (true, m', ph)) ms).
    { eapply Forall_impl; [|exact Hall]. intros m (m' & ph' & Hm).
      exists m'. now rewrite (UpdateMonster_alive _ _ _ _ _ _ Hm) in Hm. }
    apply Forall_exists_Forall2 in Hall'. destruct Hall' as [ms' Hms'].
    exists ms'. split; [|exact Hms'].
    assert (Hupd : Forall2 (fun m m' =>
              monster_update dt wps m {| player_health := ph; monsters_killed := k |}
              = Ok (true, m', {| player_health := ph; monsters_killed := k |}))
              ms ms').
    { clear Hsz Hall. induction Hms' as [|m m' ms ms' Hm _ IH]; constructor.
      - unfold monster_update. simpl. now rewrite Hm.
      - exact IH. }
    unfold monsters_pass, scan.
    pose proof (scan_loop_all_alive (monster_update dt wps) assign_monster
                  count_kill _ ms ms' Hupd [] (length ms) Hsz (Nat.le_refl _))
      as Hrun.
    change (size (@nil Monster)) with 0 in Hrun. simpl app in Hrun.
    now rewrite Hrun.
  - intros dt bs ms Hsz Hall.
    assert (Hall' : Forall (fun b => exists b',
              UpdateBullet b dt ms = Ok (true, b', ms)) bs).
    { eapply Forall_impl; [|exact Hall]. intros b (b' & ms' & Hb).
      exists b'. now rewrite (UpdateBullet_alive _ _ _ _ _ Hb) in Hb. }
    apply Forall_exists_Forall2 in Hall'. destruct Hall' as [bs' Hbs'].
    exists bs'. split; [|exact Hbs'].
    unfold bullets_pass, scan.
    pose proof (scan_loop_all_alive (fun b ms => UpdateBullet b dt ms)
                  assign_bullet (fun ms => ms) ms bs bs' Hbs' []
                  (length bs) Hsz (Nat.le_refl _)) as Hrun.
    change (size (@nil Bullet)) with 0 in Hrun. simpl app in Hrun.
    now rewrite Hrun.
  - intros dt wps s m m' ph' Hi Hm Hu. unfold monsters_body.
    rewrite (scan_turn_dead (monster_update dt wps) assign_monster count_kill
               assign_monster_copies s m m'
               {| player_health := ph'; monsters_killed := monsters_killed (sc_env s) |}
               Hm) by (unfold monster_update; now rewrite Hu).
    eexists. split; [reflexivity|]. simpl.
    split; [now apply wrap32_pred_succ|]. split; [reflexivity|].
    apply vec_at_Ok, lookup_lt_Some in Hm.
    unfold size. rewrite swap_remove_length. lia.
  - intros dt s b b' ms' Hi Hb Hu. unfold bullets_body.
    rewrite (scan_turn_dead (fun b ms => UpdateBullet b dt ms) assign_bullet
               (fun ms => ms) assign_bullet_copies s b b' ms' Hb Hu).
    eexists. split; [reflexivity|]. simpl.
    split; [now apply wrap32_pred_succ|]. split; [reflexivity|].
    apply vec_at_Ok, lookup_lt_Some in Hb.
    unfold size. rewrite swap_remove_length. lia.
Qed.

Lemma compaction_scan_witness :
  (exists ms',
     monsters_pass F32.zero two_waypoints resting_monsters opening_tally
     = Ok (ms', opening_tally) /\
     Forall2 (fun m m' => UpdateMonster m F32.zero two_waypoints 100
                          = Ok (true, m', 100)) resting_monsters ms') /\
  monsters_pass F32.zero two_waypoints resting_monsters opening_tally
  = Ok (resting_monsters, opening_tally) /\
  (exists bs',
     bullets_pass F32.zero resting_bullets resting_monsters
     = Ok (bs', resting_monsters) /\
     Forall2 (fun b b' => UpdateBullet b F32.zero resting_monsters
                          = Ok (true, b', resting_monsters)) resting_bullets bs') /\
  (exists s', monsters_body tick two_waypoints monsters_turn = Ok s' /\
     sc_i s' = 0 /\ sc_items s' = [monster_at_goal; fresh_monster]) /\
  (exists s', bullets_body tick bullets_turn = Ok s' /\
     sc_i s' = 0 /\ sc_items s' = [fired_bullet loaded_tower 1]).
Proof.
  destruct compaction_scan as (Hmonsters & Hbullets & Hmturn & Hbturn).
  split; [|split; [|split; [|split]]].
  - apply (Hmonsters F32.zero two_waypoints resting_monsters opening_tally);
      [reflexivity|].
    repeat constructor; eexists _, _; vm_compute; reflexivity.
  - vm_compute. reflexivity.
  - apply (Hbullets F32.zero resting_bullets resting_monsters); [reflexivity|].
    repeat constructor; eexists _, _; vm_compute; reflexivity.
  - destruct (Hmturn tick two_waypoints monsters_turn
                (set_health monster_in_range 0) (set_health monster_in_range 0) 100)
      as (s' & Hrun & Hi & Hitems & _).
    + unfold uint32. simpl. lia.
    + reflexivity.
    + reflexivity.
    + exists s'. split; [exact Hrun|]. split; [exact Hi|]. exact Hitems.
  - destruct (Hbturn tick bullets_turn (fired_bullet ready_tower 0)) with
      (b' := home_in (fired_bullet ready_tower 0) tick fresh_monster)
      (ms' := [set_health fresh_monster 50; monster_in_range])
      as (s' & Hrun & Hi & Hitems & _).
    + unfold uint32. simpl. lia.
    + reflexivity.
    + vm_compute. reflexivity.
    + exists s'. split; [exact Hrun|]. split; [exact Hi|]. exact Hitems.
Defined.

(** C10 as stated fails on both loops, because they are the loops that
    update the entities: a monster on its way, and a bullet in flight, are
    reported alive and come out of the pass at their index but moved, so the
    vector is not what it was. *)
Lemma living_entities_move :
  (UpdateMonster monster_in_range tick two_waypoints 100
   = Ok (true, moved_monster, 100) /\
   monsters_pass tick two_waypoints [monster_in_range] opening_tally
   = Ok ([moved_monster], opening_tally) /\
   [moved_monster] <> [monster_in_range]) /\
  (UpdateBullet (fired_bullet loaded_tower 0) tick [monster_in_range]
   = Ok (true, moved_bullet, [monster_in_range]) /\
   bullets_pass tick [fired_bullet loaded_tower 0] [monster_in_range]
   = Ok ([moved_bullet], [monster_in_range]) /\
   [moved_bullet] <> [fired_bullet loaded_tower 0]).
Proof.
  split; (split; [vm_compute; reflexivity|]);
    (split; [vm_compute; reflexivity|]); vm_compute; discriminate.
Qed.

(** A turn of the monster loop either keeps every monster and the kill
    counter, or takes the examined monster out and counts one kill; the
    monster then had no health left, or there is exactly one waypoint, or
    the monster arrived at the last waypoint. *)
Lemma monsters_turn_cases (dt : float) (wps : list Waypoint)
    (s s' : scan_state Monster tally) :
  monsters_body dt wps s = Ok s' ->
  (size (sc_items s') = size (sc_items s) /\
   monsters_killed (sc_env s') = monsters_killed (sc_env s)) \/
  (size (sc_items s') = size (sc_items s) - 1 /\
   monsters_killed (sc_env s') = wrap32 (monsters_killed (sc_env s) + 1) /\
   exists m, vec_at (sc_items s) (sc_i s) = Ok m /\
     (Monster.health m <= 0 \/ size wps = 1 \/ arrived m wps)).
Proof.
  intros Hturn. unfold monsters_body in Hturn.
  apply (scan_turn_inv _ _ _ assign_monster_copies) in Hturn.
  destruct Hturn as (m & alive & m' & t1 & Hm & Hu & ->).
  apply monster_update_inv in Hu. destruct Hu as [Hkilled Hu].
  destruct alive; simpl.
  - left. rewrite size_vec_set. auto.
  - right. rewrite Hkilled. split; [|split; [reflexivity|]].
    + apply vec_at_Ok, lookup_lt_Some in Hm.
      unfold size. rewrite swap_remove_length. lia.
    + exists m. split; [exact Hm|].
      apply UpdateMonster_dead in Hu. tauto.
Qed.

(** C5, as amended: over every frame the kill counter grows by exactly the
    number of monsters that left the vector (the 32-bit counter not
    overflowing); every turn of the monster loop that takes a monster out
    counts one kill, and it takes the monster out because [UpdateMonster]
    reported it dead: for want of health, because there is exactly one
    waypoint, or because it arrived at the last waypoint.  All three count
    as a kill.  The frame of a playable game does return. *)
Theorem kills_count_removals (dt : float) (g : Game) :
  (forall g',
     frame dt g = Ok g' ->
     let removed := size (monsters g) - size (monsters g') in
     0 <= removed /\
     (uint32 (monsters_killed (session g)) ->
      monsters_killed (session g) + removed < 2 ^ 32 ->
      monsters_killed (session g') = monsters_killed (session g) + removed)) /\
  (forall s s' : scan_state Monster tally,
     monsters_body dt (waypoints g) s = Ok s' ->
     (size (sc_items s') = size (sc_items s) /\
      monsters_killed (sc_env s') = monsters_killed (sc_env s)) \/
     (size (sc_items s') = size (sc_items s) - 1 /\
      monsters_killed (sc_env s') = wrap32 (monsters_killed (sc_env s) + 1) /\
      exists m, vec_at (sc_items s) (sc_i s) = Ok m /\
        (Monster.health m <= 0 \/ size (waypoints g) = 1 \/
         arrived m (waypoints g)))) /\
  (playable g -> exists g', frame dt g = Ok g').
Proof.
  split; [|split; [intros s s'; apply monsters_turn_cases|apply frame_total]].
  intros g' Hframe removed. subst removed.
  apply frame_inv in Hframe.
  destruct Hframe as (ms1 & t1 & ts1 & bs1 & bs2 & ms2 & Hm & _ & Hb & ->).
  simpl. apply bullets_pass_size in Hb. rewrite Hb.
  split; [apply monsters_pass_size in Hm; lia|].
  intros Hk Hsmall.
  destruct (monsters_pass_count _ _ _ _ _ _ Hk Hm) as [_ Hcount].
  rewrite Hcount. apply wrap32_small. unfold uint32 in *.
  apply monsters_pass_size in Hm. lia.
Qed.

Lemma kills_count_removals_witness :
  playable first_spawn /\
  exists g',
    frame tick first_spawn = Ok g' /\
    monsters_killed (session g') = 0 + (1 - size (monsters g')).
Proof.
  assert (Hg : playable first_spawn).
  { unfold playable, on_path, uint32, size. simpl.
    split; [lia|]. split; [lia|]. split; [|split; [constructor|lia]].
    constructor; [|constructor]. simpl. lia. }
  split; [exact Hg|].
  destruct (kills_count_removals tick first_spawn) as (Hcount & _ & Htotal).
  destruct (Htotal Hg) as [g' Hframe].
  exists g'. split; [exact Hframe|].
  destruct (Hcount g' Hframe) as [Hle Heq].
  apply Heq; [unfold uint32; simpl; lia|].
  pose proof (Nat2Z.is_nonneg (length (monsters g'))).
  unfold size in *. simpl in *. lia.
Defined.

(** C5 as stated fails at the start of a game: with the start waypoint
    alone, a spawned monster is taken out by the first frame and counted as
    a kill, although it has all its health and the player, who would lose
    health to a monster that reached the goal, loses none; it is the guard
    on the number of waypoints that reports it dead.  The same happens to a
    monster fifty pixels away from the only waypoint. *)
Lemma lone_waypoint_counts_a_kill :
  (0 < Monster.health fresh_monster /\ 0 < Monster.damage fresh_monster /\
   frame tick first_spawn
   = Ok {| monsters := []; waypoints := [start_waypoint]; towers := [];
           bullets := [];
           session := {| player_health := 100; monsters_killed := 1 |} |}) /\
  (0 < Monster.health monster_in_range /\
   near monster_in_range start_waypoint = false /\
   frame tick off_path_spawn
   = Ok {| monsters := []; waypoints := [start_waypoint]; towers := [];
           bullets := [];
           session := {| player_health := 100; monsters_killed := 1 |} |}).
Proof.
  split.
  - split; [reflexivity|]. split; [reflexivity|]. vm_compute. reflexivity.
  - split; [reflexivity|]. split; vm_compute; reflexivity.
Qed.

(** * Further properties of the systems *)

(** ** [UpdateMonster] *)

(** X1: whatever [UpdateMonster] returns, it has neither changed the health,
    the damage nor the stored velocity of the monster; a monster that is
    reported dead is exactly as it was, and a monster that is reported alive
    has cost the player nothing. *)
Theorem UpdateMonster_changes_only_course (m m' : Monster) (dt : float)
    (wps : list Waypoint) (ph ph' : Z) (alive : bool) :
  UpdateMonster m dt wps ph = Ok (alive, m', ph') ->
  Monster.health m' = Monster.health m /\
  Monster.damage m' = Monster.damage m /\
  Monster.velocity m' = Monster.velocity m /\
  (alive = false -> m' = m) /\
  (alive = true -> ph' = ph).
Proof.
  intros H. destruct alive.
  - pose proof (UpdateMonster_alive _ _ _ _ _ _ H) as ->.
    assert (Hkeep : forall m0 r, move_monster m0 dt wps ph = Ok r ->
              Monster.health r.1.2 = Monster.health m0 /\
              Monster.damage r.1.2 = Monster.damage m0 /\
              Monster.velocity r.1.2 = Monster.velocity m0).
    { intros m0 r. unfold move_monster.
      destruct (vec_at wps _) as [wp| |]; simpl; try discriminate.
      intros [= <-]. simpl. auto. }
    destruct (UpdateMonster_view m dt wps ph); try discriminate;
      apply Hkeep in H; simpl in H; destruct H as (Hh & Hd & Hv);
      (split; [exact Hh|]); (split; [exact Hd|]); (split; [exact Hv|]);
      (split; [discriminate|reflexivity]).
  - apply UpdateMonster_dead in H. destruct H as [-> _].
    split; [reflexivity|]. split; [reflexivity|]. split; [reflexivity|].
    split; [reflexivity|discriminate].
Qed.

Lemma UpdateMonster_changes_only_course_witness :
  exists m',
    UpdateMonster fresh_monster tick two_waypoints 100 = Ok (true, m', 100) /\
    Monster.health m' = 100 /\ Monster.damage m' = 5.
Proof.
  eexists. split; [vm_compute; reflexivity|].
  destruct (UpdateMonster_changes_only_course fresh_monster _ tick two_waypoints
              100 100 true ltac:(vm_compute; reflexivity)) as (Hh & Hd & _).
  split; [exact Hh|exact Hd].
Defined.

(** X2: [UpdateMonster] never runs out of fuel, and for an unsigned waypoint
    index it reads outside the waypoint vector exactly when the monster has
    health left, the number of waypoints is not one, and the index is at or
    past the end of the vector; in particular an empty waypoint vector is
    read for every monster with health left. *)
Theorem UpdateMonster_faults_iff (m : Monster) (dt : float)
    (wps : list Waypoint) (ph : Z) :
  0 <= Monster.waypoint_index m ->
  (UpdateMonster m dt wps ph = OutOfBounds <->
   0 < Monster.health m /\ size wps <> 1 /\ size wps <= Monster.waypoint_index m) /\
  UpdateMonster m dt wps ph <> OutOfFuel.
Proof.
  intros Hi.
  assert (Hmove : forall m0, 0 <= Monster.waypoint_index m0 < size wps ->
            move_monster m0 dt wps ph <> OutOfBounds /\
            move_monster m0 dt wps ph <> OutOfFuel).
  { intros m0 Hm0. destruct (move_monster_total m0 dt wps ph Hm0) as [m1 ->].
    split; discriminate. }
  assert (Hin : forall wp, vec_at wps (Monster.waypoint_index m) = Ok wp ->
            Monster.waypoint_index m < size wps).
  { intros wp Hwp. apply vec_at_Ok, lookup_lt_Some in Hwp. unfold size. lia. }
  destruct (UpdateMonster_view m dt wps ph)
    as [Hh|Hh Hs|Hh Hs Hwp|wp Hh Hs Hwp Hn Hl|wp Hh Hs Hwp Hn Hl|wp Hh Hs Hwp Hn].
  - split; [|discriminate]. split; [discriminate|lia].
  - split; [|discriminate]. split; [discriminate|lia].
  - split; [|discriminate]. split; [intros _|reflexivity].
    split; [exact Hh|]. split; [exact Hs|].
    destruct (Z.lt_ge_cases (Monster.waypoint_index m) (size wps)) as [Hlt|Hge];
      [|lia].
    destruct (vec_at_in_range wps (Monster.waypoint_index m)) as [wp Hwp'];
      [lia|congruence].
  - split; [|discriminate]. split; [discriminate|]. apply Hin in Hwp. lia.
  - apply Hin in Hwp.
    destruct (Hmove (set_waypoint_index m (wrap32 (Monster.waypoint_index m + 1))))
      as [Hb Hf].
    { simpl. pose proof (wrap32_range (Monster.waypoint_index m + 1)) as Hr.
      pose proof (wrap32_le (Monster.waypoint_index m + 1)).
      unfold uint32 in Hr. lia. }
    split; [|exact Hf]. split; [intros H; now apply Hb in H|lia].
  - apply Hin in Hwp. destruct (Hmove m) as [Hb Hf]; [lia|].
    split; [|exact Hf]. split; [intros H; now apply Hb in H|lia].
Qed.

Lemma UpdateMonster_faults_iff_witness :
  0 <= Monster.waypoint_index fresh_monster /\
  UpdateMonster fresh_monster tick [] 100 = OutOfBounds /\
  UpdateMonster (set_health fresh_monster 0) tick [] 100 <> OutOfBounds.
Proof.
  assert (Hi : 0 <= Monster.waypoint_index fresh_monster) by (simpl; lia).
  split; [exact Hi|]. split.
  - apply (proj1 (UpdateMonster_faults_iff fresh_monster tick [] 100 Hi)).
    unfold size. simpl. lia.
  - intros H.
    apply (proj1 (UpdateMonster_faults_iff (set_health fresh_monster 0) tick []
                    100 Hi)) in H.
    simpl in H. lia.
Defined.

(** ** [UpdateBullet] *)

Lemma retarget_keeps_fields (b : Bullet) (ms : list Monster) :
  Bullet.damage (retarget b ms) = Bullet.damage b /\
  Bullet.velocity (retarget b ms) = Bullet.velocity b /\
  Bullet.position (retarget b ms) = Bullet.position b.
Proof. unfold retarget. destruct (_ && _); simpl; auto. Qed.

(** X3: a call of [UpdateBullet] changes nothing of the bullet but its
    position and target index, and nothing of the monsters but the health of
    the one monster it hits: the vector keeps its length, every monster keeps
    its position, velocity, waypoint index and damage, a surviving bullet
    leaves all monsters untouched, and a bullet that dies on a non-empty
    vector has subtracted its damage, modulo [2^32], from the health of its
    target and of no other monster. *)
Theorem UpdateBullet_touches_one_health (b b' : Bullet) (dt : float)
    (ms ms' : list Monster) (alive : bool) :
  UpdateBullet b dt ms = Ok (alive, b', ms') ->
  Bullet.damage b' = Bullet.damage b /\
  Bullet.velocity b' = Bullet.velocity b /\
  length ms' = length ms /\
  (alive = true -> ms' = ms) /\
  forall j m, ms !! j = Some m ->
    exists m', ms' !! j = Some m' /\
      Monster.position m' = Monster.position m /\
      Monster.velocity m' = Monster.velocity m /\
      Monster.waypoint_index m' = Monster.waypoint_index m /\
      Monster.damage m' = Monster.damage m /\
      (j <> Z.to_nat (Bullet.target_index b') -> m' = m) /\
      (j = Z.to_nat (Bullet.target_index b') -> alive = false ->
       Monster.health m' = wrap32 (Monster.health m - Bullet.damage b)).
Proof.
  unfold UpdateBullet.
  destruct (Z.eqb_spec (size ms) 0) as [Hs|Hs].
  { intros [= <- <- <-]. destruct ms; [|discriminate].
    split; [reflexivity|]. split; [reflexivity|]. split; [reflexivity|].
    split; [discriminate|]. intros j m Hm. now rewrite lookup_nil in Hm. }
  destruct (retarget_keeps_fields b ms) as (Hd & Hv & _).
  destruct (vec_at ms (Bullet.target_index (retarget b ms))) as [target| |] eqn:Ht;
    simpl; try discriminate.
  apply vec_at_Ok in Ht.
  destruct (hits _ target).
  - intros [= <- <- <-]. simpl.
    split; [exact Hd|]. split; [exact Hv|].
    split; [unfold vec_set; apply length_insert|]. split; [discriminate|].
    intros j m Hm. unfold vec_set.
    destruct (decide (j = Z.to_nat (Bullet.target_index (retarget b ms))))
      as [->|Hne].
    + assert (m = target) as -> by congruence.
      eexists. split; [apply list_lookup_insert_eq; now apply lookup_lt_Some in Hm|].
      simpl. rewrite Hd. repeat split; congruence.
    + exists m. split; [now rewrite list_lookup_insert_ne by congruence|].
      repeat split; congruence.
  - intros [= <- <- <-]. simpl.
    split; [exact Hd|]. split; [exact Hv|]. split; [reflexivity|].
    split; [reflexivity|]. intros j m Hm. exists m.
    split; [exact Hm|]. repeat split; discriminate.
Qed.

Lemma UpdateBullet_touches_one_health_witness :
  exists b' ms',
    UpdateBullet (fired_bullet ready_tower 0) tick [fresh_monster; monster_in_range]
    = Ok (false, b', ms') /\
    Bullet.damage b' = SHOT_DAMAGE /\ length ms' = 2%nat /\
    ms' !! 1%nat = Some monster_in_range.
Proof.
  eexists _, _. split; [vm_compute; reflexivity|].
  destruct (UpdateBullet_touches_one_health (fired_bullet ready_tower 0) _ tick
              [fresh_monster; monster_in_range] _ false
              ltac:(vm_compute; reflexivity)) as (Hd & _ & Hlen & _ & Hrest).
  split; [exact Hd|]. split; [exact Hlen|].
  destruct (Hrest 1%nat monster_in_range eq_refl) as (m' & Hm' & _ & _ & _ & _ & Hsame & _).
  rewrite Hm'. f_equal. apply Hsame. discriminate.
Defined.

(** X4: on a non-empty monster vector, [UpdateBullet] of a bullet with an
    unsigned 32-bit target index returns, and the bullet it leaves targets
    an existing monster; a target index that was inside the vector is
    kept. *)
Theorem UpdateBullet_target_valid (b : Bullet) (dt : float) (ms : list Monster) :
  uint32 (Bullet.target_index b) -> ms <> [] ->
  exists alive b' ms',
    UpdateBullet b dt ms = Ok (alive, b', ms') /\
    0 <= Bullet.target_index b' < size ms /\
    (Bullet.target_index b < size ms ->
     Bullet.target_index b' = Bullet.target_index b).
Proof.
  intros Hb Hne.
  assert (Hpos : 0 < size ms).
  { unfold size. destruct ms; [congruence|simpl; lia]. }
  pose proof (retarget_valid b ms Hpos Hb) as Hvalid.
  unfold UpdateBullet.
  destruct (Z.eqb_spec (size ms) 0) as [Hs|Hs]; [lia|].
  destruct (vec_at_in_range ms _ Hvalid) as [target ->]. simpl.
  destruct (hits _ target); eexists _, _, _; (split; [reflexivity|]); simpl;
    (split; [exact Hvalid|]); intros Hlt; now rewrite retarget_in_range.
Qed.

Lemma UpdateBullet_target_valid_witness :
  uint32 (Bullet.target_index stray_bullet) /\ [fresh_monster] <> [] /\
  exists alive b' ms',
    UpdateBullet stray_bullet tick [fresh_monster] = Ok (alive, b', ms') /\
    0 <= Bullet.target_index b' < size [fresh_monster].
Proof.
  assert (Hb : uint32 (Bullet.target_index stray_bullet))
    by (unfold uint32; simpl; lia).
  assert (Hne : [fresh_monster] <> []) by discriminate.
  split; [exact Hb|]. split; [exact Hne|].
  destruct (UpdateBullet_target_valid stray_bullet tick [fresh_monster] Hb Hne)
    as (alive & b' & ms' & Hrun & Hvalid & _).
  exists alive, b', ms'. split; [exact Hrun|exact Hvalid].
Defined.

(** ** [UpdateTower] and the tower loop *)

(** What a call of [UpdateTower] that returns has done, in short. *)
Lemma UpdateTower_inv (tower t' : Tower) (dt : float) (ms : list Monster)
    (bs bs' : list Bullet) :
  UpdateTower tower dt ms bs = Ok (t', bs') ->
  same_place tower t' /\
  ((bs' = bs /\ t' = set_timer tower (F32.add (Tower.timer tower) dt)) \/
   (exists k, (k < length ms)%nat /\
      bs' = bs ++ [fired_bullet tower (Z.of_nat k)] /\
      Tower.timer t' = F32.zero)).
Proof.
  unfold UpdateTower. intros Hrun.
  apply UpdateTower_loop_sound in Hrun; [|lia|intros _ j mj Hj; simpl in Hj; lia].
  destruct Hrun as [(-> & -> & _)|(k & (m & Hm & _) & _ & _ & -> & ->)].
  - split; [repeat split|]. left. auto.
  - split; [repeat split|]. right. exists k.
    split; [now apply lookup_lt_Some in Hm|]. split; reflexivity.
Qed.

(** X5: once a tower has fired, the next call of [UpdateTower] on it,
    whatever the monsters and the bullets then are, emits nothing as long as
    the time slice alone does not reach the attack rate; the timer restarts
    from zero. *)
Theorem tower_cools_down (tower t1 t2 : Tower) (dt dt2 : float)
    (ms ms2 : list Monster) (bs bs1 bs2 bs2' : list Bullet) :
  UpdateTower tower dt ms bs = Ok (t1, bs1) -> bs1 <> bs ->
  F32.geb (F32.add F32.zero dt2) (Tower.attackRate tower) = false ->
  UpdateTower t1 dt2 ms2 bs2 = Ok (t2, bs2') ->
  bs2' = bs2 /\ Tower.timer t2 = F32.add F32.zero dt2.
Proof.
  intros Hfire Hne Hslice Hnext.
  apply UpdateTower_inv in Hfire.
  destruct Hfire as [(_ & _ & Hrate) [(-> & _)|(k & _ & _ & Htimer)]];
    [congruence|].
  unfold UpdateTower in Hnext.
  apply UpdateTower_loop_sound in Hnext;
    [|lia|intros _ j mj Hj; simpl in Hj; lia].
  destruct Hnext as [(-> & -> & _)|(i & _ & _ & Hready & _)].
  - simpl. rewrite Htimer. auto.
  - unfold ready in Hready. simpl in Hready.
    rewrite Htimer, Hrate in Hready. congruence.
Qed.

Lemma tower_cools_down_witness :
  exists t1 t2,
    UpdateTower loaded_tower F32.zero [monster_in_range] []
    = Ok (t1, [fired_bullet loaded_tower 0]) /\
    UpdateTower t1 tick [monster_in_range] [fired_bullet loaded_tower 0]
    = Ok (t2, [fired_bullet loaded_tower 0]) /\
    Tower.timer t2 = F32.add F32.zero tick.
Proof.
  eexists _, _. split; [vm_compute; reflexivity|].
  split; [vm_compute; reflexivity|].
  eapply (tower_cools_down loaded_tower _ _ F32.zero tick [monster_in_range]
            [monster_in_range] [] _ [fired_bullet loaded_tower 0]).
  - vm_compute. reflexivity.
  - discriminate.
  - vm_compute. reflexivity.
  - vm_compute. reflexivity.
Defined.

Lemma same_place_refl (t : Tower) : same_place t t.
Proof. repeat split. Qed.

Lemma same_place_trans (t1 t2 t3 : Tower) :
  same_place t1 t2 -> same_place t2 t3 -> same_place t1 t3.
Proof. unfold same_place. intros (? & ? & ?) (? & ? & ?). repeat split; congruence. Qed.

(** The tower loop from the tower of index [i] on: the towers stay where
    they are, and each of them adds one bullet at most. *)
Lemma towers_loop_post (dt : float) (ms : list Monster) (fuel : nat) :
  forall (i : nat) (ts ts' : list Tower) (bs bs' : list Bullet),
    size ts < 2 ^ 32 ->
    towers_loop fuel dt ms (Z.of_nat i) ts bs = Ok (ts', bs') ->
    Forall2 same_place ts ts' /\
    exists new, bs' = bs ++ new /\ (length new <= length ts - i)%nat /\
                Forall (shot_from ts ms) new.
Proof.
  assert (Hdone : forall (i : nat) ts bs,
            Forall2 same_place ts ts /\
            exists new, bs = bs ++ new /\ (length new <= length ts - i)%nat /\
                        Forall (shot_from ts ms) new).
  { intros i ts bs. split; [apply Forall_Forall2_diag, Forall_forall;
                             intros; apply same_place_refl|].
    exists []. rewrite app_nil_r. split; [reflexivity|]. split; [simpl; lia|constructor]. }
  induction fuel as [|fuel IH]; intros i ts ts' bs bs' Hsz; simpl;
    destruct (Z.ltb_spec (Z.of_nat i) (size ts)) as [Hlt|Hge];
    try discriminate; try (intros [= <- <-]; apply Hdone).
  unfold size in Hlt, Hsz. rewrite vec_at_nat.
  destruct (ts !! i) as [t|] eqn:Ht; [|apply lookup_ge_None in Ht; lia].
  simpl. destruct (UpdateTower t dt ms bs) as [[t1 bs1]| |] eqn:Hup;
    simpl; try discriminate.
  rewrite wrap32_succ_nat by lia. intros Hrun.
  apply UpdateTower_inv in Hup. destruct Hup as [Hplace Hshot].
  unfold vec_set in Hrun. rewrite Nat2Z.id in Hrun.
  apply IH in Hrun; [|unfold size; rewrite length_insert; lia].
  destruct Hrun as (Hsame & new & -> & Hlen & Hnew).
  rewrite length_insert in Hlen.
  assert (Hts : Forall2 same_place ts (<[i := t1]> ts)).
  { apply Forall2_same_length_lookup. split; [now rewrite length_insert|].
    intros j a c Ha Hc. destruct (decide (j = i)) as [->|Hne].
    - rewrite list_lookup_insert_eq in Hc by (now apply lookup_lt_Some in Ha).
      congruence.
    - rewrite list_lookup_insert_ne in Hc by congruence.
      assert (a = c) as -> by congruence. apply same_place_refl. }
  assert (Hback : forall b, shot_from (<[i := t1]> ts) ms b -> shot_from ts ms b).
  { intros b (Hd & Hv & Hi & j & t2 & Hj & Hp).
    split; [exact Hd|]. split; [exact Hv|]. split; [exact Hi|].
    destruct (Forall2_lookup_r _ _ _ _ _ Hts Hj) as (t0 & Ht0 & (Hpos & _)).
    exists j, t0. split; [exact Ht0|congruence]. }
  split.
  - apply Forall2_same_length_lookup. split.
    + apply Forall2_length in Hsame. now rewrite length_insert in Hsame.
    + intros j a c Ha Hc.
      destruct (Forall2_lookup_l _ _ _ _ _ Hts Ha) as (a1 & Ha1 & Hp1).
      destruct (Forall2_lookup_l _ _ _ _ _ Hsame Ha1) as (c1 & Hc1 & Hp2).
      assert (c1 = c) as -> by congruence.
      now apply same_place_trans with a1.
  - destruct Hshot as [(-> & _)|(k & Hk & -> & _)].
    + exists new. split; [reflexivity|]. split; [lia|].
      eapply Forall_impl; [|exact Hnew]. exact Hback.
    + exists (fired_bullet t (Z.of_nat k) :: new).
      split; [now rewrite <- app_assoc|]. split; [simpl; lia|].
      constructor; [|eapply Forall_impl; [|exact Hnew]; exact Hback].
      split; [reflexivity|]. split; [reflexivity|].
      split; [simpl; unfold size; lia|].
      exists i, t. split; [exact Ht|]. simpl. now destruct (Tower.position t).
Qed.

(** X6: a tower pass over fewer than [2^32] towers leaves every tower at its
    index with its position, range and attack rate (only timers change), and
    leaves the bullets that were there untouched and in place; it appends at
    most one bullet per tower, each with damage 50, no velocity, the
    position of a tower, and a target index inside the monster vector. *)
Theorem towers_pass_appends_shots (dt : float) (ms : list Monster)
    (ts ts' : list Tower) (bs bs' : list Bullet) :
  size ts < 2 ^ 32 ->
  towers_pass dt ms ts bs = Ok (ts', bs') ->
  Forall2 same_place ts ts' /\
  exists new, bs' = bs ++ new /\ (length new <= length ts)%nat /\
              Forall (shot_from ts ms) new.
Proof.
  intros Hsz Hrun. unfold towers_pass in Hrun.
  apply (towers_loop_post dt ms (length ts) 0) in Hrun; [|exact Hsz].
  destruct Hrun as (Hsame & new & Hbs & Hlen & Hnew).
  split; [exact Hsame|]. exists new. split; [exact Hbs|]. split; [lia|exact Hnew].
Qed.

Lemma towers_pass_appends_shots_witness :
  size [loaded_tower; ready_tower] < 2 ^ 32 /\
  exists ts' new,
    towers_pass F32.zero [monster_in_range] [loaded_tower; ready_tower]
      [stray_bullet] = Ok (ts', stray_bullet :: new) /\
    (length new <= 2)%nat.
Proof.
  assert (Hsz : size [loaded_tower; ready_tower] < 2 ^ 32) by reflexivity.
  split; [exact Hsz|].
  destruct (towers_pass_appends_shots F32.zero [monster_in_range]
              [loaded_tower; ready_tower] _ [stray_bullet] _ Hsz
              ltac:(vm_compute; reflexivity))
    as (_ & new & Hbs & Hlen & _).
  eexists _, new. split; [|exact Hlen].
  vm_compute. vm_compute in Hbs. rewrite <- Hbs. reflexivity.
Defined.

(** ** What the scans leave behind *)

Lemma swap_remove_Forall {A : Type} (P : A -> Prop) (i : nat) (v : list A) :
  Forall P v -> Forall P (swap_remove i v).
Proof.
  intros Hv. unfold swap_remove, pop_back.
  destruct (list.last v) as [a|] eqn:Ha; [|exact Hv].
  apply Forall_take, Forall_insert; [exact Hv|].
  rewrite last_lookup in Ha. rewrite Forall_lookup in Hv. now apply (Hv _ _ Ha).
Qed.

Section ScanPost.

Context {E G : Type}.
Variable update : E -> G -> outcome (bool * E * G).
Variable assign : E -> E -> E.
Variable on_remove : G -> G.

Hypothesis assign_copies : forall dst src, assign dst src = src.

(** When the loop returns, every entity left in the vector came out alive
    of an update during the loop: [Q] is what such an update guarantees,
    [Pg] what the environment keeps. *)
Lemma scan_loop_survivors (Q : E -> Prop) (Pg : G -> Prop) :
  (forall e g alive e' g', Pg g -> update e g = Ok (alive, e', g') ->
     Pg g' /\ (alive = true -> Q e')) ->
  (forall g, Pg g -> Pg (on_remove g)) ->
  forall (fuel : nat) (s s' : scan_state E G),
    0 <= sc_i s -> Pg (sc_env s) ->
    (forall j e, (j < Z.to_nat (sc_i s))%nat -> sc_items s !! j = Some e -> Q e) ->
    scan_loop update assign on_remove fuel s = Ok s' ->
    Forall Q (sc_items s') /\ Pg (sc_env s').
Proof.
  intros Hupd Hrem fuel.
  induction fuel as [|fuel IH]; intros s s' Hi Hg Hseen; simpl;
    destruct (Z.ltb_spec (sc_i s) (size (sc_items s))) as [Hlt|Hge];
    try discriminate;
    try (intros [= <-]; split; [|exact Hg]; apply Forall_lookup;
         intros j e He; apply (Hseen j); [|exact He];
         apply lookup_lt_Some in He; unfold size in Hge; lia).
  destruct (scan_body update assign on_remove s) as [s1| |] eqn:Hturn;
    simpl; try discriminate.
  apply (scan_turn_inv _ _ _ assign_copies) in Hturn.
  destruct Hturn as (e & alive & e' & g' & He & Hu & ->).
  destruct (Hupd _ _ _ _ _ Hg Hu) as [Hg' HQ].
  apply vec_at_Ok in He. pose proof (lookup_lt_Some _ _ _ He) as Hlen.
  destruct alive; apply IH; simpl; auto using wrap32_range.
  - apply wrap32_range.
  - intros j x Hj Hx. pose proof (wrap32_le (sc_i s + 1)).
    unfold vec_set in Hx.
    destruct (decide (j = Z.to_nat (sc_i s))) as [->|Hne].
    + rewrite list_lookup_insert_eq in Hx by assumption.
      injection Hx as <-. now apply HQ.
    + rewrite list_lookup_insert_ne in Hx by congruence.
      apply (Hseen j); [lia|assumption].
  - apply wrap32_range.
  - intros j x Hj Hx. rewrite wrap32_idem_add in Hj.
    replace (sc_i s - 1 + 1) with (sc_i s) in Hj by lia.
    pose proof (wrap32_le (sc_i s) Hi).
    assert (Hjlt : (j < length (sc_items s) - 1)%nat).
    { apply lookup_lt_Some in Hx. now rewrite swap_remove_length in Hx. }
    rewrite swap_remove_lookup in Hx by lia.
    destruct (decide (j = Z.to_nat (sc_i s))); [lia|].
    apply (Hseen j); [lia|assumption].
Qed.

(** The loop does not read outside a vector when the updates do not: [Pe]
    is what the entities keep, [Pg] what the environment keeps. *)
Lemma scan_loop_in_bounds (Pe : E -> Prop) (Pg : G -> Prop) :
  (forall e g, Pe e -> Pg g ->
     exists alive e' g', update e g = Ok (alive, e', g') /\ Pe e' /\ Pg g') ->
  (forall g, Pg g -> Pg (on_remove g)) ->
  forall (fuel : nat) (s : scan_state E G),
    0 <= sc_i s -> Forall Pe (sc_items s) -> Pg (sc_env s) ->
    scan_loop update assign on_remove fuel s <> OutOfBounds /\
    forall s', scan_loop update assign on_remove fuel s = Ok s' ->
               Forall Pe (sc_items s') /\ Pg (sc_env s').
Proof.
  intros Hupd Hrem fuel.
  induction fuel as [|fuel IH]; intros s Hi Hitems Hg; simpl;
    destruct (Z.ltb_spec (sc_i s) (size (sc_items s))) as [Hlt|Hge];
    try (split; [discriminate|]; intros s'; try discriminate;
         intros [= <-]; now split).
  destruct (vec_at_in_range (sc_items s) (sc_i s)) as [e He]; [lia|].
  assert (He' : Pe e).
  { rewrite Forall_lookup in Hitems. apply vec_at_Ok in He. now apply (Hitems _ _ He). }
  destruct (Hupd e (sc_env s) He' Hg) as (alive & e' & g' & Hu & Hpe & Hpg).
  destruct alive.
  - rewrite (scan_turn_alive update assign on_remove s e e' g' He Hu). simpl.
    apply IH; simpl; [apply wrap32_range| |exact Hpg].
    unfold vec_set. now apply Forall_insert.
  - rewrite (scan_turn_dead update assign on_remove assign_copies s e e' g' He Hu).
    simpl. apply IH; simpl; [apply wrap32_range| |now apply Hrem].
    now apply swap_remove_Forall.
Qed.

End ScanPost.

Lemma move_monster_inv (m m' : Monster) (dt : float) (wps : list Waypoint)
    (ph ph' : Z) (alive : bool) :
  move_monster m dt wps ph = Ok (alive, m', ph') ->
  has_target wps m /\
  Monster.waypoint_index m' = Monster.waypoint_index m /\
  Monster.health m' = Monster.health m.
Proof.
  unfold move_monster, has_target.
  destruct (vec_at wps _) as [wp| |]; simpl; try discriminate.
  intros [= <- <- <-]. simpl. eauto.
Qed.

(** A monster that comes out alive of [UpdateMonster] has health left,
    targets a waypoint that exists, and there is not exactly one waypoint. *)
Lemma UpdateMonster_alive_inv (m m' : Monster) (dt : float)
    (wps : list Waypoint) (ph ph' : Z) :
  UpdateMonster m dt wps ph = Ok (true, m', ph') ->
  0 < Monster.health m' /\ size wps <> 1 /\ has_target wps m'.
Proof.
  intros H. destruct (UpdateMonster_view m dt wps ph); try discriminate;
    apply move_monster_inv in H; destruct H as ((wp0 & Hwp0) & Hi & Hh);
    (split; [simpl in Hh; lia|]); (split; [assumption|]);
    exists wp0; now rewrite Hi.
Qed.

(** With exactly one waypoint, or for a monster that survives,
    [UpdateMonster] leaves the player's health alone. *)
Lemma UpdateMonster_one_waypoint (m m' : Monster) (dt : float)
    (wps : list Waypoint) (ph ph' : Z) (alive : bool) :
  size wps = 1 -> UpdateMonster m dt wps ph = Ok (alive, m', ph') ->
  alive = false /\ ph' = ph.
Proof.
  intros Hs H. destruct (UpdateMonster_view m dt wps ph); try lia;
    injection H as <- <- <-; auto.
Qed.

(** What the monster loop leaves behind. *)
Lemma monsters_pass_post (dt : float) (wps : list Waypoint)
    (ms ms' : list Monster) (t t' : tally) :
  monsters_pass dt wps ms t = Ok (ms', t') ->
  Forall (fun m => 0 < Monster.health m /\ has_target wps m) ms' /\
  (size wps = 1 -> ms' = [] /\ player_health t' = player_health t).
Proof.
  unfold monsters_pass, scan.
  destruct (scan_loop _ _ _ _ _) as [s'| |] eqn:Hrun; simpl; try discriminate.
  intros [= <- <-].
  apply (scan_loop_survivors (monster_update dt wps) assign_monster count_kill
           assign_monster_copies
           (fun m => 0 < Monster.health m /\ size wps <> 1 /\ has_target wps m)
           (fun g => size wps = 1 -> player_health g = player_health t))
    in Hrun.
  - destruct Hrun as [Hall Hph]. split.
    + eapply Forall_impl; [|exact Hall]. simpl. tauto.
    + intros Hs. split; [|now apply Hph].
      destruct (sc_items s') as [|m rest]; [reflexivity|].
      inversion Hall as [|m0 rest0 Hm _]. tauto.
  - intros m g alive m' g' Hg Hu. apply monster_update_inv in Hu.
    destruct Hu as [_ Hu]. split.
    + intros Hs. destruct (UpdateMonster_one_waypoint _ _ _ _ _ _ _ Hs Hu) as [_ ->].
      now apply Hg.
    + intros ->. now apply UpdateMonster_alive_inv in Hu.
  - intros g Hg. exact Hg.
  - simpl. lia.
  - simpl. auto.
  - simpl. intros j e Hj. lia.
Qed.

(** X7: when the monster loop returns, every monster left in the vector has
    health left and targets a waypoint that exists; with exactly one
    waypoint no monster is left at all, and the player's health is what it
    was. *)
Theorem monsters_pass_survivors (dt : float) (wps : list Waypoint)
    (ms ms' : list Monster) (t t' : tally) :
  monsters_pass dt wps ms t = Ok (ms', t') ->
  Forall (fun m => 0 < Monster.health m /\ has_target wps m) ms' /\
  (size wps = 1 -> ms' = [] /\ player_health t' = player_health t).
Proof. apply monsters_pass_post. Qed.

Lemma monsters_pass_survivors_witness :
  exists ms' t',
    monsters_pass tick [start_waypoint] [fresh_monster; monster_in_range]
      opening_tally = Ok (ms', t') /\
    ms' = [] /\ player_health t' = 100.
Proof.
  eexists _, _. split; [vm_compute; reflexivity|].
  apply (monsters_pass_survivors tick [start_waypoint]
           [fresh_monster; monster_in_range] _ opening_tally _
           ltac:(vm_compute; reflexivity)).
  reflexivity.
Defined.

(** A bullet that comes out alive of [UpdateBullet] tracks a monster of the
    vector, which is as it was. *)
Lemma UpdateBullet_alive_inv (b b' : Bullet) (dt : float)
    (ms ms' : list Monster) :
  UpdateBullet b dt ms = Ok (true, b', ms') -> ms' = ms /\ tracks ms b'.
Proof.
  unfold UpdateBullet, tracks. destruct (size ms =? 0); [discriminate|].
  destruct (vec_at ms _) as [target| |] eqn:Ht; simpl; try discriminate.
  destruct (hits _ target); [discriminate|]. intros [= <- <-]. simpl. eauto.
Qed.

(** What the bullet loop leaves behind. *)
Lemma bullets_pass_post (dt : float) (bs bs' : list Bullet)
    (ms ms' : list Monster) :
  bullets_pass dt bs ms = Ok (bs', ms') ->
  length ms' = length ms /\ Forall (tracks ms') bs' /\ (ms = [] -> bs' = []).
Proof.
  unfold bullets_pass, scan.
  destruct (scan_loop _ _ _ _ _) as [s'| |] eqn:Hrun; simpl; try discriminate.
  intros [= <- <-].
  apply (scan_loop_survivors (fun b ms => UpdateBullet b dt ms) assign_bullet
           (fun ms => ms) assign_bullet_copies
           (fun b => (Z.to_nat (Bullet.target_index b) < length ms)%nat)
           (fun g => length g = length ms)) in Hrun.
  - destruct Hrun as [Hall Hlen]. split; [exact Hlen|]. split.
    + eapply Forall_impl; [|exact Hall]. simpl. intros b Hb. unfold tracks.
      rewrite <- Hlen in Hb. apply lookup_lt_is_Some_2 in Hb.
      destruct Hb as [m Hm]. exists m. now apply vec_at_Ok.
    + intros ->. destruct (sc_items s') as [|b rest]; [reflexivity|].
      inversion Hall as [|b0 rest0 Hb _]. simpl in Hb. lia.
  - intros b g alive b' g' Hg Hu. split.
    + apply UpdateBullet_size in Hu. unfold size in Hu. lia.
    + intros ->. apply UpdateBullet_alive_inv in Hu.
      destruct Hu as [_ (m & Hm)]. apply vec_at_Ok, lookup_lt_Some in Hm. lia.
  - auto.
  - simpl. lia.
  - reflexivity.
  - simpl. intros j e Hj. lia.
Qed.

(** X8: when the bullet loop returns, the monster vector has the length it
    had and every bullet left in the bullet vector targets an existing
    monster; without monsters, no bullet is left. *)
Theorem bullets_pass_survivors (dt : float) (bs bs' : list Bullet)
    (ms ms' : list Monster) :
  bullets_pass dt bs ms = Ok (bs', ms') ->
  length ms' = length ms /\ Forall (tracks ms') bs' /\ (ms = [] -> bs' = []).
Proof. apply bullets_pass_post. Qed.

Lemma bullets_pass_survivors_witness :
  exists bs' ms',
    bullets_pass tick [stray_bullet; fired_bullet loaded_tower 1] [monster_in_range]
    = Ok (bs', ms') /\
    Forall (tracks ms') bs'.
Proof.
  eexists _, _. split; [vm_compute; reflexivity|].
  apply (bullets_pass_survivors tick [stray_bullet; fired_bullet loaded_tower 1]
           _ [monster_in_range] _ ltac:(vm_compute; reflexivity)).
Defined.

(** ** No read outside a vector *)

Lemma UpdateMonster_keeps_on_path (m : Monster) (dt : float)
    (wps : list Waypoint) (ph : Z) :
  on_path wps m ->
  exists alive m' ph',
    UpdateMonster m dt wps ph = Ok (alive, m', ph') /\ on_path wps m'.
Proof.
  unfold on_path. intros Hi.
  assert (Hmove : forall m0, 0 <= Monster.waypoint_index m0 < size wps ->
            exists alive m' ph',
              move_monster m0 dt wps ph = Ok (alive, m', ph') /\
              0 <= Monster.waypoint_index m' < size wps).
  { intros m0 Hm0. destruct (move_monster_total m0 dt wps ph Hm0) as [m1 Hrun].
    exists true, m1, ph. split; [exact Hrun|].
    apply move_monster_inv in Hrun. destruct Hrun as (_ & -> & _). exact Hm0. }
  destruct (UpdateMonster_view m dt wps ph)
    as [Hh|Hh Hs|Hh Hs Hwp|wp Hh Hs Hwp Hn Hl|wp Hh Hs Hwp Hn Hl|wp Hh Hs Hwp Hn];
    eauto 10.
  - destruct (vec_at_in_range wps _ Hi) as [wp Hwp']. congruence.
  - apply Hmove. simpl.
    pose proof (wrap32_range (Monster.waypoint_index m + 1)) as Hr.
    pose proof (wrap32_le (Monster.waypoint_index m + 1)). unfold uint32 in Hr.
    lia.
Qed.

Lemma retarget_uint32 (b : Bullet) (ms : list Monster) :
  uint32 (Bullet.target_index b) -> uint32 (Bullet.target_index (retarget b ms)).
Proof.
  intros Hb. unfold retarget. destruct (_ && _); [apply wrap32_range|exact Hb].
Qed.

Lemma UpdateBullet_keeps_safe (b : Bullet) (dt : float) (ms : list Monster)
    (wps : list Waypoint) :
  uint32 (Bullet.target_index b) -> Forall (on_path wps) ms ->
  exists alive b' ms',
    UpdateBullet b dt ms = Ok (alive, b', ms') /\
    uint32 (Bullet.target_index b') /\ Forall (on_path wps) ms'.
Proof.
  intros Hb Hms. unfold UpdateBullet.
  destruct (Z.eqb_spec (size ms) 0) as [Hs|Hs]; [eauto 10|].
  assert (Hpos : 0 < size ms) by (unfold size in *; lia).
  destruct (vec_at_in_range ms _ (retarget_valid b ms Hpos Hb)) as [target Ht].
  rewrite Ht. simpl. pose proof (retarget_uint32 b ms Hb) as Hb'.
  destruct (hits _ target); eexists _, _, _; (split; [reflexivity|]); simpl;
    (split; [exact Hb'|]); [|exact Hms].
  unfold vec_set. apply Forall_insert; [exact Hms|].
  apply vec_at_Ok in Ht. rewrite Forall_lookup in Hms.
  exact (Hms _ _ Ht).
Qed.

Lemma UpdateTower_loop_in_bounds (tower : Tower) (ms : list Monster)
    (bs : list Bullet) (fuel : nat) :
  forall i : Z,
    uint32 i -> Forall (fun b => uint32 (Bullet.target_index b)) bs ->
    UpdateTower_loop fuel tower ms bs i <> OutOfBounds /\
    forall t' bs', UpdateTower_loop fuel tower ms bs i = Ok (t', bs') ->
                   Forall (fun b => uint32 (Bullet.target_index b)) bs'.
Proof.
  induction fuel as [|fuel IH]; intros i Hi Hbs; simpl;
    destruct (Z.ltb_spec i (size ms)) as [Hlt|Hge];
    try (split; [discriminate|]; intros t' bs'; try discriminate;
         now intros [= <- <-]).
  destruct (vec_at_in_range ms i) as [m ->]; [unfold uint32 in Hi; lia|].
  simpl.
  destruct (in_range tower m); [destruct (ready tower)|];
    try (apply IH; [apply wrap32_range|exact Hbs]).
  split; [discriminate|]. intros t' bs' [= <- <-].
  apply Forall_app. split; [exact Hbs|]. constructor; [exact Hi|constructor].
Qed.

Lemma towers_loop_in_bounds (dt : float) (ms : list Monster) (fuel : nat) :
  forall (i : Z) (ts : list Tower) (bs : list Bullet),
    0 <= i -> Forall (fun b => uint32 (Bullet.target_index b)) bs ->
    towers_loop fuel dt ms i ts bs <> OutOfBounds /\
    forall ts' bs', towers_loop fuel dt ms i ts bs = Ok (ts', bs') ->
                    Forall (fun b => uint32 (Bullet.target_index b)) bs'.
Proof.
  induction fuel as [|fuel IH]; intros i ts bs Hi Hbs; simpl;
    destruct (Z.ltb_spec i (size ts)) as [Hlt|Hge];
    try (split; [discriminate|]; intros ts' bs'; try discriminate;
         now intros [= <- <-]).
  destruct (vec_at_in_range ts i) as [t ->]; [lia|]. simpl.
  destruct (UpdateTower_loop_in_bounds
              (set_timer t (F32.add (Tower.timer t) dt)) ms bs (length ms) 0)
    as [Hnot Hok]; [unfold uint32; lia|exact Hbs|].
  unfold UpdateTower.
  destruct (UpdateTower_loop _ _ _ _ _) as [[t1 bs1]| |]; simpl;
    try congruence; try (split; [discriminate|intros ? ?; discriminate]).
  apply IH; [apply wrap32_range|]. now apply (Hok t1 bs1).
Qed.

(** The three loops of a frame, one after the other, on a safe game. *)
Lemma frame_in_bounds (dt : float) (g : Game) :
  safe g ->
  frame dt g <> OutOfBounds /\
  forall g', frame dt g = Ok g' -> safe g' /\ waypoints g' = waypoints g.
Proof.
  intros (Hwps & Hms & Hbs). unfold frame, monsters_pass, towers_pass, bullets_pass, scan.
  destruct (scan_loop_in_bounds (monster_update dt (waypoints g)) assign_monster
              count_kill assign_monster_copies (on_path (waypoints g))
              (fun _ => True))
    with (fuel := length (monsters g))
         (s := {| sc_i := 0; sc_items := monsters g; sc_env := session g |})
    as [Hm1 Hm2]; simpl; auto; try lia.
  { intros m t Hm _.
    destruct (UpdateMonster_keeps_on_path m dt (waypoints g) (player_health t) Hm)
      as (alive & m' & ph' & Hu & Hm').
    unfold monster_update. rewrite Hu. simpl. eauto 10. }
  destruct (scan_loop _ _ _ _ {| sc_i := 0; sc_items := monsters g |})
    as [s1| |] eqn:Hrun1; simpl; try congruence;
    [|split; [discriminate|intros ?; discriminate]].
  destruct (Hm2 s1 eq_refl) as [Hms1 _].
  destruct (towers_loop_in_bounds dt (sc_items s1) (length (towers g)) 0
              (towers g) (bullets g)) as [Ht1 Ht2]; [lia|exact Hbs|].
  destruct (towers_loop _ _ _ _ _ _) as [[ts1 bs1]| |] eqn:Hrun2; simpl;
    try congruence; [|split; [discriminate|intros ?; discriminate]].
  pose proof (Ht2 ts1 bs1 eq_refl) as Hbs1.
  destruct (scan_loop_in_bounds (fun b ms => UpdateBullet b dt ms) assign_bullet
              (fun ms => ms) assign_bullet_copies
              (fun b => uint32 (Bullet.target_index b))
              (Forall (on_path (waypoints g))))
    with (fuel := length bs1)
         (s := {| sc_i := 0; sc_items := bs1; sc_env := sc_items s1 |})
    as [Hb1 Hb2]; simpl; auto; try lia.
  { intros b ms Hb Hmsb. now apply UpdateBullet_keeps_safe. }
  destruct (scan_loop _ _ _ _ {| sc_i := 0; sc_items := bs1 |})
    as [s2| |] eqn:Hrun3; simpl; try congruence;
    [|split; [discriminate|intros ?; discriminate]].
  destruct (Hb2 s2 eq_refl) as [Hbs2 Hms2].
  split; [discriminate|]. intros g' [= <-]. simpl.
  split; [|reflexivity]. split; [exact Hwps|]. split; assumption.
Qed.

(** X9: in a safe game a frame never reads outside a vector, and the game
    it returns is safe again: the waypoints are the same, the monsters still
    target waypoints of the sequence, and the target indices of the bullets
    are unsigned 32-bit values. *)
Theorem frame_keeps_safe (dt : float) (g : Game) :
  safe g ->
  frame dt g <> OutOfBounds /\
  forall g', frame dt g = Ok g' -> safe g' /\ waypoints g' = waypoints g.
Proof. apply frame_in_bounds. Qed.

Lemma frame_keeps_safe_witness :
  safe ambush /\ exists g', frame tick ambush = Ok g' /\ safe g'.
Proof.
  assert (Hsafe : safe ambush).
  { split; [discriminate|]. split; [|constructor].
    constructor; [|constructor]. unfold on_path, size. simpl. lia. }
  split; [exact Hsafe|].
  eexists. split; [vm_compute; reflexivity|].
  apply (proj2 (frame_keeps_safe tick ambush Hsafe)). vm_compute. reflexivity.
Defined.

(** ** The event loop of [main] *)

Lemma on_path_more_waypoints (wps more : list Waypoint) (m : Monster) :
  on_path wps m -> on_path (wps ++ more) m.
Proof.
  unfold on_path, size. rewrite length_app. lia.
Qed.

(** An event on a game with a waypoint. *)
Lemma handle_event_step (event : Event) (g : Game) :
  waypoints g <> [] ->
  exists g', handle_event event g = Ok g' /\ extends g g' /\ (safe g -> safe g').
Proof.
  intros Hwps.
  assert (Hsame : exists g', Ok g = Ok g' /\ extends g g' /\ (safe g -> safe g')).
  { exists g. split; [reflexivity|]. split; [|auto]. repeat split; reflexivity. }
  destruct event as [|[| |]|[| |] cx cy|]; simpl; try exact Hsame.
  - destruct (waypoints g) as [|wp0 rest] eqn:Hw; [congruence|].
    unfold vec_at. simpl. eexists. split; [reflexivity|]. split.
    + repeat split; simpl; try reflexivity; try (now rewrite Hw).
      now apply prefix_app_r.
    + intros (_ & Hms & Hbs). rewrite Hw in Hms. repeat split; simpl.
      * discriminate.
      * apply Forall_app. split; [exact Hms|]. constructor; [|constructor].
        unfold on_path, size. simpl. lia.
      * exact Hbs.
  - eexists. split; [reflexivity|]. split.
    + repeat split; simpl; try reflexivity. now apply prefix_app_r.
    + intros (_ & Hms & Hbs). repeat split; simpl.
      * intros H. apply app_eq_nil in H. tauto.
      * eapply Forall_impl; [|exact Hms]. intros m. apply on_path_more_waypoints.
      * exact Hbs.
  - eexists. split; [reflexivity|]. split.
    + repeat split; simpl; try reflexivity. now apply prefix_app_r.
    + intros (Hw & Hms & Hbs). repeat split; assumption.
Qed.

(** X10: on a game with at least one waypoint every event is handled
    without a read outside a vector, and it only ever appends: the monsters,
    waypoints and towers that were there stay where they are, the bullets,
    the player's health and the kill counter are untouched, and a safe game
    stays safe. *)
Theorem handle_event_appends (event : Event) (g : Game) :
  waypoints g <> [] ->
  exists g', handle_event event g = Ok g' /\ extends g g' /\ (safe g -> safe g').
Proof. apply handle_event_step. Qed.

Lemma handle_event_appends_witness :
  waypoints initial_game <> [] /\
  exists g', handle_event (KeyPressed Space) initial_game = Ok g' /\
             extends initial_game g' /\ monsters g' = [fresh_monster].
Proof.
  assert (Hw : waypoints initial_game <> []) by discriminate.
  split; [exact Hw|].
  destruct (handle_event_appends (KeyPressed Space) initial_game Hw)
    as (g' & Hrun & Hext & _).
  exists g'. split; [exact Hrun|]. split; [exact Hext|].
  simpl in Hrun. injection Hrun as <-. reflexivity.
Defined.

Lemma handle_events_safe (events : list Event) :
  forall g, safe g -> exists g', handle_events events g = Ok g' /\ safe g'.
Proof.
  induction events as [|event rest IH]; intros g Hg; simpl; [eauto|].
  destruct (handle_event_step event g) as (g1 & -> & _ & Hsafe); [apply Hg|].
  simpl. apply IH. now apply Hsafe.
Qed.

Lemma initial_game_safe : safe initial_game.
Proof. split; [discriminate|]. split; constructor. Qed.

Lemma reachable_is_safe (g : Game) : reachable g -> safe g.
Proof.
  induction 1 as [|g events dt g' _ IH Hturn]; [apply initial_game_safe|].
  unfold main_turn in Hturn.
  destruct (handle_events_safe events g IH) as (g1 & Hev & Hg1).
  rewrite Hev in Hturn. simpl in Hturn.
  destruct (frame dt g1) as [g2| |] eqn:Hframe; simpl in Hturn; try discriminate.
  injection Hturn as <- _.
  now apply (proj2 (frame_in_bounds dt g1 Hg1)).
Qed.

(** X11: from the start of [main] on, whatever the events and the time
    slices, every game that the main loop reaches is safe, and no turn of
    the loop reads outside a vector: neither the spawn on [waypoints[0]] nor
    any of the three update loops. *)
Theorem main_never_out_of_bounds (g : Game) :
  reachable g ->
  safe g /\
  forall events dt, main_turn events dt g <> OutOfBounds.
Proof.
  intros Hreach. pose proof (reachable_is_safe g Hreach) as Hg.
  split; [exact Hg|]. intros events dt. unfold main_turn.
  destruct (handle_events_safe events g Hg) as (g1 & -> & Hg1). simpl.
  pose proof (proj1 (frame_in_bounds dt g1 Hg1)) as Hframe.
  destruct (frame dt g1); simpl; congruence.
Qed.

Lemma main_never_out_of_bounds_witness :
  main_turn opening_events tick initial_game = Ok (after_opening, false) /\
  reachable after_opening /\ safe after_opening /\
  length (monsters after_opening) = 1%nat.
Proof.
  assert (Hturn : main_turn opening_events tick initial_game
                  = Ok (after_opening, false)) by (vm_compute; reflexivity).
  assert (Hreach : reachable after_opening)
    by (exact (reach_turn _ _ _ _ reach_start Hturn)).
  split; [exact Hturn|]. split; [exact Hreach|].
  split; [exact (proj1 (main_never_out_of_bounds _ Hreach))|reflexivity].
Defined.

(** ** Whole frames *)

Lemma tally_eta (t : tally) :
  {| player_health := player_health t; monsters_killed := monsters_killed t |} = t.
Proof. now destruct t. Qed.

(** As long as no monster has left the vector, the monster loop has not
    touched the player's health or the kill counter. *)
Lemma monsters_pass_quiet (dt : float) (wps : list Waypoint)
    (ms ms' : list Monster) (t t' : tally) :
  monsters_pass dt wps ms t = Ok (ms', t') -> size ms' = size ms -> t' = t.
Proof.
  unfold monsters_pass, scan.
  destruct (scan_loop _ _ _ _ _) as [s'| |] eqn:Hrun; simpl; try discriminate.
  intros [= <- <-].
  apply (scan_loop_inv (monster_update dt wps) assign_monster count_kill
           (fun s => size (sc_items s) <= size ms /\
                     (size (sc_items s) = size ms -> sc_env s = t))) in Hrun.
  - tauto.
  - clear. intros s s1 [Hle Hsame] Hlt Hturn.
    apply (scan_turn_inv _ _ _ assign_monster_copies) in Hturn.
    destruct Hturn as (m & alive & m' & t1 & Hm & Hu & ->).
    pose proof Hu as Hinv. apply monster_update_inv in Hinv.
    destruct Hinv as [Hk Hup]. destruct alive; simpl.
    + rewrite size_vec_set. split; [exact Hle|]. intros Heq.
      apply UpdateMonster_alive in Hup. rewrite <- (Hsame Heq).
      destruct t1 as [ph1 k1]. simpl in *. subst. apply tally_eta.
    + apply vec_at_Ok, lookup_lt_Some in Hm.
      unfold size in *. rewrite swap_remove_length. split; lia.
  - simpl. split; [lia|auto].
Qed.

(** X12: a frame that returns with as many monsters as it started with has
    changed neither the player's health nor the kill counter. *)
Theorem quiet_frame_keeps_tally (dt : float) (g g' : Game) :
  frame dt g = Ok g' -> size (monsters g') = size (monsters g) ->
  session g' = session g.
Proof.
  intros Hframe Hsize. apply frame_inv in Hframe.
  destruct Hframe as (ms1 & t1 & ts1 & bs1 & bs2 & ms2 & Hm & _ & Hb & ->).
  simpl in *. apply bullets_pass_size in Hb. rewrite Hb in Hsize.
  now apply (monsters_pass_quiet _ _ _ _ _ _ Hm).
Qed.

Lemma quiet_frame_keeps_tally_witness :
  exists g', frame tick ambush = Ok g' /\ session g' = session ambush.
Proof.
  eexists. split; [vm_compute; reflexivity|].
  apply (quiet_frame_keeps_tally tick ambush); [vm_compute; reflexivity|].
  reflexivity.
Defined.

(** X13: with exactly one waypoint, a frame that returns has emptied the
    monster vector and the bullet vector, and the player's health is what
    it was: every monster is discarded by the guard of [UpdateMonster], and
    every bullet for want of a monster. *)
Theorem lone_waypoint_frame_wipes (dt : float) (g g' : Game) :
  size (waypoints g) = 1 -> frame dt g = Ok g' ->
  monsters g' = [] /\ bullets g' = [] /\
  player_health (session g') = player_health (session g).
Proof.
  intros Hone Hframe. apply frame_inv in Hframe.
  destruct Hframe as (ms1 & t1 & ts1 & bs1 & bs2 & ms2 & Hm & Ht & Hb & ->).
  simpl. apply monsters_pass_post in Hm. destruct Hm as [_ Hm].
  destruct (Hm Hone) as [-> Hph].
  apply bullets_pass_post in Hb. destruct Hb as (Hlen & _ & Hbs).
  split; [now destruct ms2|]. split; [now apply Hbs|exact Hph].
Qed.

Lemma lone_waypoint_frame_wipes_witness :
  size (waypoints first_spawn) = 1 /\
  exists g', frame tick first_spawn = Ok g' /\ monsters g' = [] /\ bullets g' = [].
Proof.
  assert (Hone : size (waypoints first_spawn) = 1) by reflexivity.
  split; [exact Hone|].
  eexists. split; [vm_compute; reflexivity|].
  destruct (lone_waypoint_frame_wipes tick first_spawn _ Hone
              ltac:(vm_compute; reflexivity)) as (Hms & Hbs & _).
  split; [exact Hms|exact Hbs].
Defined.

(** ** Positions that are not numbers *)

Lemma sub_nan (a b : float) :
  is_nan a || is_nan b = true -> F32.sub a b = S754_nan.
Proof. destruct a, b; try discriminate; reflexivity. Qed.

Lemma mul_nan (a b : float) :
  is_nan a || is_nan b = true -> F32.mul a b = S754_nan.
Proof. destruct a, b; try discriminate; reflexivity. Qed.

Lemma add_nan (a b : float) :
  is_nan a || is_nan b = true -> F32.add a b = S754_nan.
Proof. destruct a, b; try discriminate; reflexivity. Qed.

Lemma div_nan (a b : float) :
  is_nan a || is_nan b = true -> F32.div a b = S754_nan.
Proof. destruct a, b; try discriminate; reflexivity. Qed.

(** The length of a direction with a NaN component is a NaN. *)
Lemma Magnitude_nan (a b : float) :
  is_nan a || is_nan b = true -> Magnitude a b = S754_nan.
Proof.
  intros H. apply orb_true_iff in H. unfold Magnitude. destruct H as [H|H].
  - destruct a; try discriminate. reflexivity.
  - destruct b; try discriminate.
    change (F32.mul S754_nan S754_nan) with S754_nan.
    now destruct (F32.mul a a).
Qed.

Lemma Distance_nan (p q : Position) :
  nan_position p || nan_position q = true -> Distance p q = S754_nan.
Proof.
  intros H. change (Distance p q)
    with (Magnitude (F32.sub (x q) (x p)) (F32.sub (y q) (y p))).
  apply Magnitude_nan. unfold nan_position in H.
  apply orb_true_iff in H. destruct H as [H|H];
    apply orb_true_iff in H; destruct H as [H|H].
  - rewrite (sub_nan (x q) (x p)); [reflexivity|]. rewrite H. apply orb_true_r.
  - rewrite (sub_nan (y q) (y p)); [apply orb_true_r|]. rewrite H. apply orb_true_r.
  - rewrite (sub_nan (x q) (x p)); [reflexivity|]. now rewrite H.
  - rewrite (sub_nan (y q) (y p)); [apply orb_true_r|]. now rewrite H.
Qed.

(** Moving from an undefined position, or along an undefined direction,
    leads to an undefined position. *)
Lemma advance_nan (p : Position) (a b speed dt : float) :
  nan_position p = true \/ is_nan a || is_nan b = true ->
  nan_position (advance p (Normalize a b) speed dt) = true.
Proof.
  intros H. unfold advance, nan_position. simpl.
  destruct H as [H|H].
  - unfold nan_position in H. apply orb_true_iff in H. destruct H as [H|H].
    + rewrite (add_nan (x p)); [reflexivity|]. now rewrite H.
    + rewrite (add_nan (y p)); [apply orb_true_r|]. now rewrite H.
  - rewrite (Magnitude_nan a b H).
    rewrite (div_nan a S754_nan) by apply orb_true_r.
    rewrite (mul_nan S754_nan speed) by reflexivity.
    rewrite (mul_nan S754_nan dt) by reflexivity.
    rewrite (add_nan (x p) S754_nan) by apply orb_true_r. reflexivity.
Qed.

(** X14: a monster one of whose coordinates is a NaN is within the threshold
    of no waypoint and in range of no tower, and no bullet that homes in on
    it hits it; if it has health left and there is not exactly one waypoint,
    an [UpdateMonster] that returns reports it alive, leaves the player's
    health alone and leaves it at an undefined position. *)
Theorem nan_monster_is_stuck (m : Monster) :
  nan_position (Monster.position m) = true ->
  (forall wp, near m wp = false) /\
  (forall tower, in_range tower m = false) /\
  (forall b dt, hits (home_in b dt m) m = false /\
                nan_position (Bullet.position (home_in b dt m)) = true) /\
  (forall dt wps ph alive m' ph',
     0 < Monster.health m -> size wps <> 1 ->
     UpdateMonster m dt wps ph = Ok (alive, m', ph') ->
     alive = true /\ ph' = ph /\ nan_position (Monster.position m') = true).
Proof.
  intros Hnan.
  assert (Hnear : forall wp, near m wp = false).
  { intros wp. unfold near. now rewrite Distance_nan by (now rewrite Hnan). }
  split; [exact Hnear|]. split; [|split].
  - intros tower. unfold in_range.
    rewrite Distance_nan by (rewrite Hnan; apply orb_true_r).
    unfold F32.leb. simpl. reflexivity.
  - intros b dt.
    assert (Hb : nan_position (Bullet.position (home_in b dt m)) = true).
    { unfold home_in. simpl. apply advance_nan.
      destruct (nan_position (Bullet.position b)) eqn:Hbp; [now left|right].
      unfold nan_position in Hnan. apply orb_true_iff in Hnan.
      destruct Hnan as [H|H].
      - now rewrite sub_nan by (now rewrite H).
      - rewrite (sub_nan (y _)) by (now rewrite H). apply orb_true_r. }
    split; [|exact Hb]. unfold hits. now rewrite Distance_nan by (now rewrite Hb).
  - intros dt wps ph alive m' ph' Hh Hs Hrun.
    destruct (UpdateMonster_view m dt wps ph)
      as [Hh'|Hh' Hs1|Hh' Hs1 Hwp|wp Hh' Hs1 Hwp Hn Hl|wp Hh' Hs1 Hwp Hn Hl|wp Hh' Hs1 Hwp Hn];
      try lia; try discriminate; try (rewrite Hnear in Hn; discriminate).
    unfold move_monster in Hrun.
    destruct (vec_at wps _) as [wp1| |]; simpl in Hrun; try discriminate.
    injection Hrun as <- <- <-. split; [reflexivity|]. split; [reflexivity|].
    simpl. apply advance_nan. now left.
Qed.

Lemma nan_monster_is_stuck_witness :
  nan_position (Monster.position lost_monster) = true /\
  UpdateMonster fresh_monster tick stacked_waypoints 100
  = Ok (true, lost_monster, 100) /\
  UpdateMonster lost_monster tick stacked_waypoints 100
  = Ok (true, lost_monster, 100) /\
  in_range ready_tower lost_monster = false.
Proof.
  assert (Hnan : nan_position (Monster.position lost_monster) = true)
    by reflexivity.
  assert (Hrun : UpdateMonster lost_monster tick stacked_waypoints 100
                 = Ok (true, lost_monster, 100)) by (vm_compute; reflexivity).
  destruct (nan_monster_is_stuck lost_monster Hnan) as (_ & Hrange & _ & Hstay).
  split; [exact Hnan|]. split; [vm_compute; reflexivity|].
  split; [exact Hrun|]. apply Hrange.
Defined.

(** ** Distances *)

(** The square of a rounded number does not depend on its sign. *)
Lemma binary_round_aux_square (s s' : bool) (mx ex : Z) (lx : location) :
  F32.mul (binary_round_aux F32.prec F32.emax s mx ex lx)
          (binary_round_aux F32.prec F32.emax s mx ex lx)
  = F32.mul (binary_round_aux F32.prec F32.emax s' mx ex lx)
            (binary_round_aux F32.prec F32.emax s' mx ex lx).
Proof.
  unfold binary_round_aux.
  destruct (shr_fexp _ _ mx ex lx) as [mrs' e'].
  destruct (shr_fexp _ _ _ e' loc_Exact) as [mrs'' e''].
  destruct (shr_m mrs''); [| |reflexivity].
  - destruct s, s'; reflexivity.
  - destruct (e'' <=? _); destruct s, s'; reflexivity.
Qed.

Lemma binary_normalize_opp_square (m e : Z) :
  F32.mul (binary_normalize F32.prec F32.emax m e false)
          (binary_normalize F32.prec F32.emax m e false)
  = F32.mul (binary_normalize F32.prec F32.emax (- m) e false)
            (binary_normalize F32.prec F32.emax (- m) e false).
Proof.
  destruct m as [|p|p]; simpl; [reflexivity| |];
    unfold binary_round; destruct (shl_align _ _ _) as [mz ez];
    apply binary_round_aux_square.
Qed.

(** [(a - b) * (a - b)] and [(b - a) * (b - a)] are the same float. *)
Lemma sub_swap_square (a b : float) :
  F32.mul (F32.sub a b) (F32.sub a b) = F32.mul (F32.sub b a) (F32.sub b a).
Proof.
  destruct a as [sa|sa| |sa ma ea], b as [sb|sb| |sb mb eb];
    try reflexivity;
    try (destruct sa, sb; reflexivity);
    try (destruct sa; reflexivity); try (destruct sb; reflexivity).
  all: try (unfold F32.sub, SFsub; destruct sa; simpl;
            apply (binary_round_aux_square _ _ (Zpos _))).
  all: try (unfold F32.sub, SFsub; destruct sb; simpl;
            apply (binary_round_aux_square _ _ (Zpos _))).
  unfold F32.sub, SFsub. rewrite (Z.min_comm eb ea).
  set (ez := Z.min ea eb).
  set (A := cond_Zopp sa (Zpos (fst (shl_align ma ea ez)))).
  set (B := cond_Zopp sb (Zpos (fst (shl_align mb eb ez)))).
  replace (B - A) with (- (A - B)) by lia.
  apply binary_normalize_opp_square.
Qed.

(** X15: [Distance] does not depend on the order of its two positions:
    either order gives a NaN when the other does, and otherwise the two
    results are the same binary32 value, sign of zero included.  (Which NaN
    a NaN result is, is not part of the model.) *)
Theorem Distance_symmetric (p q : Position) :
  is_nan (Distance p q) = is_nan (Distance q p) /\
  (is_nan (Distance p q) = false -> Distance p q = Distance q p).
Proof.
  assert (Hsym : Distance p q = Distance q p).
  { unfold Distance.
    now rewrite (sub_swap_square (x q)), (sub_swap_square (y q)). }
  split; [now rewrite Hsym|intros _; exact Hsym].
Qed.

Lemma Distance_symmetric_witness :
  is_nan (Distance (at_pixel 150 150) (at_pixel 300 170)) = false /\
  Distance (at_pixel 150 150) (at_pixel 300 170)
  = Distance (at_pixel 300 170) (at_pixel 150 150).
Proof.
  assert (Hnum : is_nan (Distance (at_pixel 150 150) (at_pixel 300 170)) = false)
    by (vm_compute; reflexivity).
  split; [exact Hnum|].
  exact (proj2 (Distance_symmetric (at_pixel 150 150) (at_pixel 300 170)) Hnum).
Defined.

Lemma sub_self (a : float) : is_finite a = true -> F32.sub a a = S754_zero false.
Proof.
  destruct a as [s|s| |s m e]; try discriminate; intros _.
  - now destruct s.
  - unfold F32.sub, SFsub. now rewrite Z.sub_diag.
Qed.

(** The distance from a finite position to itself is [+0]. *)
Lemma Distance_self (xp yp : float) :
  is_finite xp = true -> is_finite yp = true ->
  Distance {| x := xp; y := yp |} {| x := xp; y := yp |} = S754_zero false.
Proof.
  intros Hx Hy. unfold Distance. simpl. rewrite !sub_self by assumption.
  reflexivity.
Qed.

(** X16: a monster spawned on a first waypoint with finite coordinates is
    on that waypoint.  If it is the only waypoint, the first update
    discards the monster; if there are more, the first update makes it
    target the second waypoint at once and reports it alive, with its
    health and the player's health as they were: a spawned monster never
    heads for the waypoint it was spawned on. *)
Theorem spawned_monster_leaves_start (wp0 : Waypoint) (dt : float) (ph : Z) :
  finite_position (Waypoint.position wp0) = true ->
  near (spawn wp0) wp0 = true /\
  UpdateMonster (spawn wp0) dt [wp0] ph = Ok (false, spawn wp0, ph) /\
  forall wp1 rest,
    exists m',
      UpdateMonster (spawn wp0) dt (wp0 :: wp1 :: rest) ph = Ok (true, m', ph) /\
      Monster.waypoint_index m' = 1 /\ Monster.health m' = 100.
Proof.
  intros Hfin. unfold finite_position in Hfin. apply andb_true_iff in Hfin.
  destruct Hfin as [Hx Hy].
  assert (Hnear : near (spawn wp0) wp0 = true).
  { unfold near. destruct wp0 as [[xp yp]]. simpl in *.
    now rewrite Distance_self. }
  split; [exact Hnear|]. split; [reflexivity|].
  intros wp1 rest. unfold UpdateMonster. simpl Monster.health.
  change (100 <=? 0) with false. cbv iota.
  assert (Hsize : size (wp0 :: wp1 :: rest) = Z.of_nat (length rest) + 2)
    by (unfold size; simpl length; lia).
  rewrite Hsize.
  destruct (Z.eqb_spec (Z.of_nat (length rest) + 2) 1) as [H|_]; [lia|].
  change (vec_at (wp0 :: wp1 :: rest) (Monster.waypoint_index (spawn wp0)))
    with (Ok wp0 : outcome Waypoint).
  cbn [mbind outcome_bind]. rewrite Hnear.
  destruct (Z.eqb_spec (Z.of_nat (length rest) + 2 - 1)
              (Monster.waypoint_index (spawn wp0))) as [H|_];
    [simpl in H; lia|].
  eexists. split; [reflexivity|]. split; reflexivity.
Qed.

Lemma spawned_monster_leaves_start_witness :
  finite_position (Waypoint.position start_waypoint) = true /\
  exists m',
    UpdateMonster fresh_monster tick two_waypoints 100 = Ok (true, m', 100) /\
    Monster.waypoint_index m' = 1.
Proof.
  assert (Hfin : finite_position (Waypoint.position start_waypoint) = true)
    by reflexivity.
  split; [exact Hfin|].
  destruct (spawned_monster_leaves_start start_waypoint tick 100 Hfin)
    as (_ & _ & Hnext).
  destruct (Hnext (waypoint_at 300 150) []) as (m' & Hrun & Hi & _).
  exists m'. split; [exact Hrun|exact Hi].
Defined.

(** ** Rendering of the monsters *)

(** The loop of [DrawMonsters] adds the picture of each remaining monster,
    in the order of the vector. *)
Lemma DrawMonsters_loop_spec (rest : list Monster) :
  forall (pre : list Monster) (shape healthBar health : RectangleShape)
         (target : list RectangleShape),
    size (pre ++ rest) < 2 ^ 32 ->
    moved monster_shape shape -> moved healthBar_shape healthBar ->
    resized health_shape health ->
    DrawMonsters_loop (length rest) (pre ++ rest) (size pre)
      shape healthBar health target
    = Ok (target ++ flat_map monster_picture rest).
Proof.
  induction rest as [|m rest IH]; intros pre shape healthBar health target
    Hsize Hs Hb Hh.
  - simpl. rewrite app_nil_r.
    destruct (Z.ltb_spec (size pre) (size pre)) as [H|_]; [lia|].
    now rewrite app_nil_r.
  - cbn [DrawMonsters_loop length].
    assert (Hlen : size (pre ++ m :: rest) = size pre + Z.of_nat (S (length rest)))
      by (unfold size; rewrite length_app; simpl length; lia).
    destruct (Z.ltb_spec (size pre) (size (pre ++ m :: rest))) as [_|H]; [|lia].
    assert (Hat : vec_at (pre ++ m :: rest) (size pre) = Ok m).
    { unfold size. rewrite vec_at_nat.
      now rewrite lookup_app_r, Nat.sub_diag by lia. }
    rewrite Hat. cbn [mbind outcome_bind].
    rewrite wrap32_small by (unfold uint32, size in *; lia).
    replace (size pre + 1) with (size (pre ++ [m]))
      by (unfold size; rewrite length_app; simpl; lia).
    rewrite (cons_middle m pre rest), app_assoc.
    rewrite IH.
    + rewrite Hs, Hb, Hh. cbn [flat_map monster_picture].
      now rewrite <- !app_assoc.
    + now rewrite <- app_assoc.
    + intros px py. exact (Hs px py).
    + intros px py. exact (Hb px py).
    + intros v px py. exact (Hh v px py).
Qed.

Lemma width_table : forallb width_ok (seq 0 100) = true.
Proof. vm_compute. reflexivity. Qed.

Lemma width_row (h : Z) :
  0 <= h < MONSTER_MAX_HEALTH -> width_ok (Z.to_nat h) = true.
Proof.
  intros Hh. eapply forallb_forall; [exact width_table|].
  apply in_seq. unfold MONSTER_MAX_HEALTH in Hh. lia.
Qed.

Lemma health_width_bounds (h : Z) :
  0 <= h <= MONSTER_MAX_HEALTH ->
  F32.leb F32.zero (health_width h) = true /\
  F32.leb (health_width h) MONSTER_SIZE = true.
Proof.
  intros Hh. destruct (Z.eq_dec h MONSTER_MAX_HEALTH) as [->|Hne].
  - split; vm_compute; reflexivity.
  - assert (Hrow := width_row h ltac:(lia)). unfold width_ok in Hrow.
    rewrite Z2Nat.id in Hrow by lia.
    apply andb_true_iff in Hrow. destruct Hrow as [Hrow _].
    apply andb_true_iff in Hrow. exact Hrow.
Qed.

(** X17: on fewer than [2^32] monsters [DrawMonsters] returns, having added
    to the target, per monster and in the order of the vector, three
    rectangles: the body, centred on the position of the monster, the red
    bar and the green bar.  For a health within [0 .. MONSTER_MAX_HEALTH]
    the green bar lies on the red one and is no wider; it is as wide at
    full health and has width zero at health zero; and below the maximum
    one more point of health makes it strictly wider. *)
Theorem DrawMonsters_draws_health_bars (monsters : list Monster)
    (target : list RectangleShape) :
  size monsters < 2 ^ 32 ->
  DrawMonsters monsters target
  = Ok (target ++ flat_map monster_picture monsters) /\
  (forall m,
      0 <= Monster.health m <= MONSTER_MAX_HEALTH ->
      exists body red green,
        monster_picture m = [body; red; green] /\
        RectangleShape.place body
        = {| v2x := x (Monster.position m); v2y := y (Monster.position m) |} /\
        RectangleShape.origin body
        = {| v2x := F32.of_Z 16; v2y := F32.of_Z 16 |} /\
        bar_fits red green /\
        (Monster.health m = MONSTER_MAX_HEALTH ->
         RectangleShape.extent green = RectangleShape.extent red) /\
        (Monster.health m = 0 ->
         v2x (RectangleShape.extent green) = F32.zero)) /\
  (forall h,
      0 <= h < MONSTER_MAX_HEALTH ->
      SFltb (health_width h) (health_width (h + 1)) = true).
Proof.
  intros Hsize. split; [|split].
  - unfold DrawMonsters.
    apply (DrawMonsters_loop_spec monsters [] monster_shape healthBar_shape
             health_shape target Hsize);
      intros ?; reflexivity.
  - intros m Hh. eexists _, _, _. split; [reflexivity|].
    split; [reflexivity|]. split; [reflexivity|].
    destruct (health_width_bounds _ Hh) as [H0 H1].
    split; [|split].
    + unfold bar_fits. simpl. auto.
    + intros ->. reflexivity.
    + intros ->. reflexivity.
  - intros h Hh. assert (Hrow := width_row h Hh). unfold width_ok in Hrow.
    apply andb_true_iff in Hrow. destruct Hrow as [_ Hrow].
    rewrite <- Hrow. f_equal; f_equal; lia.
Qed.

Lemma DrawMonsters_draws_health_bars_witness :
  size resting_monsters < 2 ^ 32 /\
  DrawMonsters resting_monsters []
  = Ok (flat_map monster_picture resting_monsters).
Proof.
  assert (Hsize : size resting_monsters < 2 ^ 32) by (vm_compute; reflexivity).
  split; [exact Hsize|].
  exact (proj1 (DrawMonsters_draws_health_bars resting_monsters [] Hsize)).
Defined.
